(** * go-datagrams: offline signatures, options mappings and I2P addresses

    A shallow embedding of the codecs of package [datagrams]
    (offline signature block, options mapping, address parser) together
    with the properties established about them. *)

From Stdlib Require Import ZArith Lia List Ascii String.
From Stdlib Require Strings.Byte.
From stdpp Require Import gmap strings list fin_maps sorting.

Local Open Scope Z_scope.

(** ** Go run-time model *)

(** A Go computation either completes with a value or panics. *)
Inductive fault : Type :=
| NilDereference
| IndexOutOfRange
| NegativeLength
| NilMapAssignment
| InvalidReference.

Inductive exec (A : Type) : Type :=
| Done (a : A)
| Panic (f : fault).
Arguments Done {A} a.
Arguments Panic {A} f.

#[global] Instance exec_ret : MRet exec := λ A a, Done a.

#[global] Instance exec_bind : MBind exec := λ A B k m,
  match m with
  | Done a => k a
  | Panic f => Panic f
  end.

Abbreviation byte := Byte.byte.

(** [int(b)] for a byte [b]. *)
Definition byte_to_Z (b : byte) : Z := Z.of_N (Byte.to_N b).

(** [byte(z)]: keeps the low eight bits. *)
Definition byte_of_Z (z : Z) : byte :=
  match Byte.of_N (Z.to_N (z mod 256)) with
  | Some b => b
  | None => Byte.x00
  end.

(** [len(s)] as a Go [int]. *)
Definition len {A} (l : list A) : Z := Z.of_nat (length l).

(** The slice expression [s[lo:hi]]; it panics when the bounds are not ordered
    within the slice. Go checks [hi] against the capacity, which is at least
    the length: the model checks it against the length, so it panics wherever
    Go does. *)
Definition slice {A} (s : list A) (lo hi : Z) : exec (list A) :=
  if (0 <=? lo) && (lo <=? hi) && (hi <=? len s)
  then Done (take (Z.to_nat (hi - lo)) (drop (Z.to_nat lo) s))
  else Panic IndexOutOfRange.

(** The slice expression [s[lo:]]. *)
Definition slice_from {A} (s : list A) (lo : Z) : exec (list A) :=
  slice s lo (len s).

(** [make([]byte, n)]. *)
Definition make_bytes (n : Z) : exec (list byte) :=
  if n <? 0 then Panic NegativeLength else Done (replicate (Z.to_nat n) Byte.x00).

(** [copy(dst, src)] where [dst] is the window of [buf] starting at [off]:
    the first [min(len(dst), len(src))] bytes of the window are overwritten;
    the buffer keeps its length. *)
Definition copy_at (buf : list byte) (off : nat) (src : list byte) : list byte :=
  take off buf ++ take (length buf - off) src ++ drop (off + length src) buf.

(** [uint32(x)] and [uint16(x)] of a signed integer. *)
Definition uint32 (x : Z) : Z := x mod 2 ^ 32.
Definition uint16 (x : Z) : Z := x mod 2 ^ 16.

(** [binary.BigEndian.Uint32(b)] *)
Definition BigEndian_Uint32 (b : list byte) : exec Z :=
  match b with
  | b0 :: b1 :: b2 :: b3 :: _ =>
      Done (Z.lor (Z.lor (Z.lor (byte_to_Z b3) (Z.shiftl (byte_to_Z b2) 8))
                         (Z.shiftl (byte_to_Z b1) 16))
                  (Z.shiftl (byte_to_Z b0) 24))
  | _ => Panic IndexOutOfRange
  end.

(** [binary.BigEndian.Uint16(b)] *)
Definition BigEndian_Uint16 (b : list byte) : exec Z :=
  match b with
  | b0 :: b1 :: _ => Done (Z.lor (byte_to_Z b1) (Z.shiftl (byte_to_Z b0) 8))
  | _ => Panic IndexOutOfRange
  end.

(** The four bytes [binary.BigEndian.PutUint32] stores for [v]. *)
Definition be32_bytes (v : Z) : list byte :=
  [byte_of_Z (Z.shiftr v 24); byte_of_Z (Z.shiftr v 16);
   byte_of_Z (Z.shiftr v 8); byte_of_Z v].

(** The two bytes [binary.BigEndian.PutUint16] stores for [v]. *)
Definition be16_bytes (v : Z) : list byte :=
  [byte_of_Z (Z.shiftr v 8); byte_of_Z v].

(** [binary.BigEndian.PutUint32(buf[lo:hi], v)]: writes through the window
    into [buf]; panics when the window is out of range or shorter than four
    bytes. *)
Definition PutUint32_at (buf : list byte) (lo hi : Z) (v : Z) : exec (list byte) :=
  w ← slice buf lo hi;
  if len w <? 4 then Panic IndexOutOfRange
  else Done (copy_at buf (Z.to_nat lo) (be32_bytes v)).

(** [binary.BigEndian.PutUint16(buf[lo:hi], v)]. *)
Definition PutUint16_at (buf : list byte) (lo hi : Z) (v : Z) : exec (list byte) :=
  w ← slice buf lo hi;
  if len w <? 2 then Panic IndexOutOfRange
  else Done (copy_at buf (Z.to_nat lo) (be16_bytes v)).

(** [copy(buf[lo:], src)]. *)
Definition copy_from (buf : list byte) (lo : Z) (src : list byte) : exec (list byte) :=
  w ← slice_from buf lo;
  Done (copy_at buf (Z.to_nat lo) src).

(** The unsigned big-endian value of four bytes and of two bytes. *)
Definition be32_value (b0 b1 b2 b3 : byte) : Z :=
  byte_to_Z b0 * 2 ^ 24 + byte_to_Z b1 * 2 ^ 16 + byte_to_Z b2 * 2 ^ 8 + byte_to_Z b3.

Definition be16_value (b0 b1 : byte) : Z := byte_to_Z b0 * 2 ^ 8 + byte_to_Z b1.

(** The byte at position [i] of [data], zero beyond its end. *)
Definition byte_at (data : list byte) (i : nat) : byte := nth i data Byte.x00.

(** [time.Time], as far as the codec looks at it: an instant, given by the
    whole seconds since the epoch and the nanoseconds within the second. Two
    values are equal when they are the same instant ([Time.Equal]). *)
Record Time : Type := mkTime { unix_sec : Z; nanos : Z }.

(** [time.Unix(sec, nsec)]: nanoseconds outside [[0, 1e9)] are carried into
    the seconds. *)
Definition time_Unix (sec nsec : Z) : Time :=
  if (nsec <? 0) || (1000000000 <=? nsec) then
    let n := Z.quot nsec 1000000000 in
    let sec := sec + n in
    let nsec := nsec - n * 1000000000 in
    if nsec <? 0 then mkTime (sec - 1) (nsec + 1000000000) else mkTime sec nsec
  else mkTime sec nsec.

(** [t.Unix()] *)
Definition Time_Unix (t : Time) : Z := unix_sec t.

(** [t.After(u)]: the instant [t] is later than [u]. *)
Definition Time_After (t u : Time) : bool :=
  (unix_sec u <? unix_sec t)
  || ((unix_sec t =? unix_sec u) && (nanos u <? nanos t)).

(** ** Offline signature block *)

Module Offline.

Record OfflineSignature : Type := mkOfflineSignature {
  Expires : Time;
  TransientSigType : Z;
  TransientPublicKey : list byte;
  Signature : list byte
}.

(** The errors [OfflineSignatureFromBytes] builds with [fmt.Errorf], with the
    numbers their messages carry. *)
Inductive OfflineError : Type :=
| HeaderTooShort (got : Z)
| UnknownTransientSigType (sigType : Z)
| UnknownDestinationSigType (sigType : Z)
| DataTooShort (need got : Z).

Definition publicKeyLengthForSigType (sigType : Z) : Z :=
  match sigType with
  | 0 => 128
  | 1 => 64
  | 2 => 96
  | 3 => 132
  | 7 => 32
  | 11 => 32
  | _ => 0
  end.

Definition signatureLengthForSigType (sigType : Z) : Z :=
  match sigType with
  | 0 => 40
  | 1 => 64
  | 2 => 96
  | 3 => 132
  | 7 => 64
  | 11 => 64
  | _ => 0
  end.

(** The Go result triple [(OfflineSignature pointer, int, error)]. *)
Definition decoded : Type := (option OfflineSignature * Z * option OfflineError)%type.

Definition OfflineSignatureFromBytes (data : list byte) (destSigType : Z) : exec decoded :=
  if len data <? 6 then Done (None, 0, Some (HeaderTooShort (len data)))
  else
    hd ← slice data 0 4;
    expiresSec ← BigEndian_Uint32 hd;
    let expires := time_Unix expiresSec 0 in
    st ← slice data 4 6;
    transientSigType ← BigEndian_Uint16 st;
    let transientKeyLen := publicKeyLengthForSigType transientSigType in
    if transientKeyLen =? 0
    then Done (None, 0, Some (UnknownTransientSigType transientSigType))
    else
      let authSigLen := signatureLengthForSigType destSigType in
      if authSigLen =? 0
      then Done (None, 0, Some (UnknownDestinationSigType destSigType))
      else
        let totalLen := 6 + transientKeyLen + authSigLen in
        if len data <? totalLen
        then Done (None, 0, Some (DataTooShort totalLen (len data)))
        else
          let offset := 6 in
          transientKey ← make_bytes transientKeyLen;
          src ← slice data offset (offset + transientKeyLen);
          let transientKey := copy_at transientKey 0 src in
          let offset := offset + transientKeyLen in
          signature ← make_bytes authSigLen;
          src ← slice data offset (offset + authSigLen);
          let signature := copy_at signature 0 src in
          Done (Some (mkOfflineSignature expires transientSigType transientKey signature),
                totalLen, None).

Definition Bytes (o : OfflineSignature) : exec (list byte) :=
  let totalLen := 6 + len (TransientPublicKey o) + len (Signature o) in
  result ← make_bytes totalLen;
  result ← PutUint32_at result 0 4 (uint32 (Time_Unix (Expires o)));
  result ← PutUint16_at result 4 6 (TransientSigType o);
  let offset := 6 in
  result ← copy_from result offset (TransientPublicKey o);
  let offset := offset + len (TransientPublicKey o) in
  result ← copy_from result offset (Signature o);
  Done result.

Definition Len (o : OfflineSignature) : Z :=
  6 + len (TransientPublicKey o) + len (Signature o).

(** The fields of the six-byte header, as the wire layout gives them:
    [expires] in bytes 0 to 3 and the transient signature type in bytes 4
    and 5, both unsigned big-endian. *)
Definition wire_expires (data : list byte) : Z :=
  be32_value (byte_at data 0) (byte_at data 1) (byte_at data 2) (byte_at data 3).

Definition wire_sigtype (data : list byte) : Z :=
  be16_value (byte_at data 4) (byte_at data 5).

(** Blocks used as examples: an Ed25519 block, a block whose expiry is
    2^32 seconds, and a block of an unknown transient type with an empty key. *)
Definition ed25519_block : OfflineSignature :=
  mkOfflineSignature (mkTime 1234567890 0) 7
    (replicate 32 Byte.x01) (replicate 64 Byte.x02).

Definition late_block : OfflineSignature :=
  mkOfflineSignature (mkTime (2 ^ 32) 0) 7
    (replicate 32 Byte.x00) (replicate 64 Byte.x00).

Definition untyped_block : OfflineSignature :=
  mkOfflineSignature (mkTime 0 0) 255 [] (replicate 64 Byte.x00).

(** [IsExpired], with the instant [time.Now()] reads from the clock as
    [now]. *)
Definition IsExpired (now : Time) (o : OfflineSignature) : bool :=
  Time_After now (Expires o).

(** The 102 bytes of a block with an Ed25519 transient key and an Ed25519
    destination: expiry 1234567890, type 7, 32 key bytes, 64 signature
    bytes. *)
Definition ed25519_wire : list byte :=
  Eval cbv in
    be32_bytes 1234567890 ++ be16_bytes 7 ++ replicate 32 Byte.x01 ++ replicate 64 Byte.x02.

End Offline.

(** ** Address parser *)

Module Addr.

Record I2PAddr : Type := mkI2PAddr {
  Destination : string;
  Port : Z
}.

(** [strconv.ErrSyntax] and [strconv.ErrRange]. *)
Inductive NumError : Type :=
| ErrSyntax
| ErrRange.

Inductive AddrError : Type :=
| EmptyAddress
| InvalidPort (portStr : string) (err : NumError).

Definition colon : ascii := ":"%char.

(** [strings.Split(s, ":")]: the segments between the colons; a string with
    [n] colons has [n + 1] segments, the empty string has the single segment
    [""]. *)
Fixpoint Split (s : string) : list string :=
  match s with
  | EmptyString => [EmptyString]
  | String c s' =>
      if Ascii.eqb c colon then EmptyString :: Split s'
      else match Split s' with
           | seg :: segs => String c seg :: segs
           | [] => [String c EmptyString]
           end
  end.

(** [strings.Join(parts, ":")] *)
Fixpoint Join (parts : list string) : string :=
  match parts with
  | [] => EmptyString
  | [p] => p
  | p :: ps => p +:+ String colon (Join ps)
  end.

(** [lower(c)] of package strconv: [c | ('x' - 'X')]. *)
Definition lower (c : Z) : Z := Z.lor c 32.

(** The digit loop of [strconv.ParseUint] for a base between 2 and 36 (so
    without the prefix and underscore handling of base 0); [n] is the value
    read so far, as a [uint64]. *)
Fixpoint ParseUint_loop (base maxVal cutoff : Z) (s : string) (n : Z) : Z * option NumError :=
  match s with
  | EmptyString => (n, None)
  | String ch s' =>
      let c := Z.of_N (N_of_ascii ch) in
      let digit :=
        if (48 <=? c) && (c <=? 57) then Some (c - 48)
        else if (97 <=? lower c) && (lower c <=? 122) then Some (lower c - 97 + 10)
        else None in
      match digit with
      | None => (0, Some ErrSyntax)
      | Some d =>
          if base <=? d then (0, Some ErrSyntax)
          else if cutoff <=? n then (maxVal, Some ErrRange)
          else
            let n := (n * base) mod 2 ^ 64 in
            let n1 := (n + d) mod 2 ^ 64 in
            if (n1 <? n) || (maxVal <? n1) then (maxVal, Some ErrRange)
            else ParseUint_loop base maxVal cutoff s' n1
      end
  end.

(** [strconv.ParseUint(s, base, bitSize)] for [2 <= base <= 36] and
    [1 <= bitSize <= 64]. *)
Definition ParseUint (s : string) (base bitSize : Z) : Z * option NumError :=
  match s with
  | EmptyString => (0, Some ErrSyntax)
  | _ =>
      let cutoff := (2 ^ 64 - 1) / base + 1 in
      let maxVal := 2 ^ bitSize - 1 in
      ParseUint_loop base maxVal cutoff s 0
  end.

(** The Go result pair [(I2PAddr pointer, error)]. *)
Definition parsed : Type := (option I2PAddr * option AddrError)%type.

Definition ParseI2PAddr (addr : string) : parsed :=
  if String.eqb addr EmptyString then (None, Some EmptyAddress)
  else
    let parts := Split addr in
    if len parts =? 1 then
      (Some (mkI2PAddr (List.hd EmptyString parts) 0), None)
    else
      let portStr := List.last parts EmptyString in
      let '(port, err) := ParseUint portStr 10 16 in
      match err with
      | Some e => (None, Some (InvalidPort portStr e))
      | None =>
          let destination := Join (List.removelast parts) in
          (Some (mkI2PAddr destination (uint16 port)), None)
      end.

(** Whether a string contains a colon. *)
Fixpoint has_colon (s : string) : bool :=
  match s with
  | EmptyString => false
  | String c s' => Ascii.eqb c colon || has_colon s'
  end.

(** The code of a character, as the Go byte. *)
Definition char_code (c : ascii) : Z := Z.of_N (N_of_ascii c).

(** A decimal digit, ['0'] to ['9']. *)
Definition is_digit (c : ascii) : bool := (48 <=? char_code c) && (char_code c <=? 57).

Fixpoint all_digits (s : string) : bool :=
  match s with
  | EmptyString => true
  | String c s' => is_digit c && all_digits s'
  end.

(** The number a string of decimal digits denotes, after the digits read so
    far denote [acc]. *)
Fixpoint decimal_value (s : string) (acc : Z) : Z :=
  match s with
  | EmptyString => acc
  | String c s' => decimal_value s' (10 * acc + (char_code c - 48))
  end.

(** A port in text: a non-empty string of decimal digits that denotes a
    number of at most 65535. *)
Definition port_value (s : string) : option Z :=
  match s with
  | EmptyString => None
  | _ => if all_digits s && (decimal_value s 0 <=? 65535)
         then Some (decimal_value s 0) else None
  end.

(** [d ++ ":" ++ p] *)
Definition with_port (d p : string) : string := d +:+ String colon p.

(** The cutoff of [strconv.ParseUint] in base 10: the least number whose
    tenfold exceeds a [uint64]. *)
Definition cutoff10 : Z := (2 ^ 64 - 1) / 10 + 1.

(** [Network] *)
Definition Network (a : option I2PAddr) : string := "i2p".

(** The digit loop of package fmt for an unsigned integer in base 10: the
    digits of [u] are written from the last to the first in front of
    [suffix]. The buffer of fmt has room for every [uint64]; [fuel] bounds the
    number of digits. *)
Fixpoint fmt_digits (fuel : nat) (u : Z) (suffix : string) : string :=
  match fuel with
  | O => suffix
  | S fuel' =>
      if u <? 10 then String (ascii_of_N (Z.to_N (48 + u))) suffix
      else
        let next := u / 10 in
        fmt_digits fuel' next (String (ascii_of_N (Z.to_N (48 + (u - next * 10)))) suffix)
  end.

(** The verb [%d] of [fmt.Sprintf] for an unsigned integer. *)
Definition fmt_uint (u : Z) : string := fmt_digits 20 u EmptyString.

(** [len(s)] of a Go string. *)
Definition strlen (s : string) : Z := Z.of_nat (String.length s).

(** The method [String] ([String] alone is the constructor of strings). It
    reads the fields of its receiver, so it panics on the nil pointer. *)
Definition String_ (a : option I2PAddr) : exec string :=
  match a with
  | None => Panic NilDereference
  | Some a =>
      if String.eqb (Destination a) EmptyString
      then Done (String colon (fmt_uint (Port a)))
      else
        let dest := Destination a in
        let dest := if 16 <? strlen dest
                    then String.substring 0 16 dest +:+ "..."
                    else dest in
        Done (dest +:+ String colon (fmt_uint (Port a)))
  end.

Definition Equal (a other : option I2PAddr) : bool :=
  match a, other with
  | Some x, Some y =>
      String.eqb (Destination x) (Destination y) && (Port x =? Port y)
  | None, None => true
  | _, _ => false
  end.

(** [AsNetAddr] *)
Definition AsNetAddr (a : option I2PAddr) : option I2PAddr := a.

(** The destination [String] shows: the first 16 bytes and three dots for a
    destination of more than 16 bytes. *)
Definition shown (dest : string) : string :=
  if 16 <? strlen dest then String.substring 0 16 dest +:+ "..." else dest.

End Addr.

(** ** The mapping of package [github.com/go-i2p/common/data] *)

Module Data.

(** Modelled from the spec: the type [data.I2PString] of the imported package
    is not part of the sources. The spec describes a key or value on the wire
    as "a 1-byte length prefix (0-255) followed by that many bytes of
    content"; an [I2PString] holds these bytes, prefix included. *)
Abbreviation I2PString := (list byte).

(** Modelled from the spec: what [I2PString.Data()] reports for bytes that
    are not a length prefix followed by that many bytes. *)
Inductive StringError : Type :=
| ErrZeroLength
| ErrLengthMismatch.

(** Modelled from the spec: [I2PString.Data()], missing with its package. It
    yields the content of a string whose prefix states its length, and an
    error otherwise. *)
Definition I2PString_Data (s : I2PString) : string * option StringError :=
  match s with
  | [] => (EmptyString, Some ErrZeroLength)
  | n :: content =>
      if byte_to_Z n =? len content
      then (string_of_list_byte content, None)
      else (EmptyString, Some ErrLengthMismatch)
  end.

(** Modelled from the spec: the string with its length prefix, for a content of
    at most 255 bytes ("validate every key and every value is <=255 bytes when
    encoded"). *)
Definition ToI2PString (s : string) : I2PString :=
  byte_of_Z (len (list_byte_of_string s)) :: list_byte_of_string s.

(** Modelled from the spec: [data.Mapping], missing with its package: the
    size field and the [key=value;] records in the order they are written. *)
Record Mapping : Type := mkMapping {
  size : Z;
  vals : list (I2PString * I2PString)
}.

(** Modelled from the spec: [Mapping.Values()], the pairs of a mapping in
    their order. *)
Definition Values (m : Mapping) : list (I2PString * I2PString) := vals m.

(** Modelled from the spec: the errors [data.ReadMapping] reports. The
    package reports each as a message, and none carries an offset:
    [ZeroLength] for fewer than three bytes, [LengthExceedsData] when the
    "declared mapping size exceeds available bytes", [DataBeyondLength] when
    bytes follow the region, [FormatViolation] when "a key/value record
    violates the separator/terminator grammar", and [DuplicateKey] when a
    key is read a second time. *)
Inductive MappingError : Type :=
| ZeroLength
| LengthExceedsData
| DataBeyondLength
| FormatViolation
| DuplicateKey.

(** Modelled from the spec: the encode error, the "encode-time violation of
    the 255-byte field limit". The package reports it for the string that
    is too long and does not say which key it belongs to. *)
Inductive EncodeError : Type :=
| StringTooLong.

(** The separator [0x3D] and the terminator [0x3B] of a record. *)
Definition equals_sign : byte := Byte.x3d.
Definition semicolon : byte := Byte.x3b.

(** Modelled from the spec: one record on the wire, "len(key):u8, key bytes,
    '=', len(value):u8, value bytes, ';'". *)
Definition record_bytes (kv : I2PString * I2PString) : list byte :=
  kv.1 ++ [equals_sign] ++ kv.2 ++ [semicolon].

(** Modelled from the spec: [Mapping.Data()], the serialization of a mapping:
    the content prefixed "with its length as a 2-byte big-endian size field". *)
Definition Mapping_Data (m : Mapping) : list byte :=
  be16_bytes (size m) ++ flat_map record_bytes (vals m).

(** Modelled from the spec: a mapping from its records; the size is the length
    of the assembled content. *)
Definition ValuesToMapping (values : list (I2PString * I2PString)) : Mapping :=
  mkMapping (len (flat_map record_bytes values)) values.

(** Modelled from the spec: a length-prefixed string at the head of [region],
    "a 1-byte length prefix (0-255) followed by that many bytes of content";
    [None] when the prefix runs past the region boundary. *)
Definition ReadI2PString (region : list byte) : option (I2PString * list byte) :=
  match region with
  | [] => None
  | n :: rest =>
      let k := Z.to_nat (byte_to_Z n) in
      if (length rest <? k)%nat then None
      else Some (n :: take k rest, drop k rest)
  end.

(** Modelled from the spec: decode, step 5, the region as a sequence of
    [key=value;] records: "each key and value is a 1-byte length prefix
    (0-255) followed by that many bytes of content; a literal = byte must
    immediately follow the key content and a literal ; byte must immediately
    follow the value content", and a deviation is an error. The package
    reads on only while at least six bytes are left, the least a record with
    a key and a value of one byte each takes: with fewer it stops, and that
    is no error. It reports a key it has read before; [seen] holds the keys
    read so far. Every record takes at least four bytes, so a [fuel] of the
    length of the region is never used up. *)
Fixpoint ReadMappingValues (fuel : nat) (region : list byte) (seen : list string)
  : MappingError + list (I2PString * I2PString) :=
  match fuel with
  | O => inr []
  | S fuel' =>
      if len region <? 6 then inr []
      else
        match ReadI2PString region with
        | None => inl FormatViolation
        | Some (key, rest) =>
            let keyAsString := (I2PString_Data key).1 in
            if bool_decide (keyAsString ∈ seen) then inl DuplicateKey
            else
              match rest with
              | sep :: rest =>
                  if Byte.eqb sep equals_sign then
                    match ReadI2PString rest with
                    | None => inl FormatViolation
                    | Some (val, rest) =>
                        match rest with
                        | term :: rest =>
                            if Byte.eqb term semicolon then
                              match ReadMappingValues fuel' rest (keyAsString :: seen) with
                              | inl e => inl e
                              | inr more => inr ((key, val) :: more)
                              end
                            else inl FormatViolation
                        | [] => inl FormatViolation
                        end
                    end
                  else inl FormatViolation
              | [] => inl FormatViolation
              end
        end
  end.

(** Modelled from the spec: [data.ReadMapping], missing with its package,
    after decode steps 2, 4 and 5. It reads the size, requires
    "len(data) >= 2 + size", and parses the region. The package returns the
    bytes after the region as the remainder and reports them as an error
    when there are any; [OptionsFromBytes] calls it for a size that is not
    0. *)
Definition ReadMapping (bytes : list byte) : Mapping * list byte * list MappingError :=
  match bytes with
  | b0 :: b1 :: rest =>
      let size := Z.lor (Z.shiftl (byte_to_Z b0) 8) (byte_to_Z b1) in
      if len rest <? 1 then (mkMapping 0 [], [], [ZeroLength])
      else if len rest <? size then (mkMapping 0 [], [], [LengthExceedsData])
      else
        let region := take (Z.to_nat size) rest in
        let remainder := drop (Z.to_nat size) rest in
        match ReadMappingValues (length region) region [] with
        | inl e => (mkMapping 0 [], remainder, [e])
        | inr values =>
            if 0 <? len remainder
            then (mkMapping size values, remainder, [DataBeyondLength])
            else (mkMapping size values, remainder, [])
        end
  | _ => (mkMapping 0 [], [], [ZeroLength])
  end.

(** Modelled from the spec: the order of the keys, "ascending raw byte value
    (not locale-aware)", which is the order of Go strings. *)
Definition key_le (p q : string * string) : Prop := Is_true (String.leb p.1 q.1).

#[global] Instance key_le_dec p q : Decision (key_le p q) := _.

(** Modelled from the spec: encode, step 3, "validate every key and every
    value is <=255 bytes when encoded; the first violation fails the whole
    operation". *)
Fixpoint validate (kvs : list (string * string)) : option EncodeError :=
  match kvs with
  | [] => None
  | (k, v) :: kvs' =>
      if 255 <? len (list_byte_of_string k) then Some StringTooLong
      else if 255 <? len (list_byte_of_string v) then Some StringTooLong
      else validate kvs'
  end.

(** Modelled from the spec: the record of a key and its value, both with their
    length prefix. *)
Definition to_record (kv : string * string) : I2PString * I2PString :=
  (ToI2PString kv.1, ToI2PString kv.2).

(** Modelled from the spec: [data.GoMapToMapping], missing with its package,
    after encode steps 2 to 4: "collect all keys, sort by ascending raw byte
    value (not locale-aware), and for each, in that order, emit" its record. *)
Definition GoMapToMapping (gomap : gmap string string) : option Mapping * option EncodeError :=
  let kvs := merge_sort key_le (map_to_list gomap) in
  match validate kvs with
  | Some e => (None, Some e)
  | None =>
      (Some (ValuesToMapping (List.map to_record kvs)), None)
  end.

(** A length-prefixed string whose prefix states the length of its content. *)
Definition well_formed (s : I2PString) : bool :=
  match s with
  | [] => false
  | n :: content => byte_to_Z n =? len content
  end.

(** A record whose key and value are both such strings. *)
Definition wf_record (kv : I2PString * I2PString) : Prop :=
  Is_true (well_formed kv.1) ∧ Is_true (well_formed kv.2).

(** The key and the value of a record, as Go strings. *)
Definition record_key (kv : I2PString * I2PString) : string := (I2PString_Data kv.1).1.
Definition record_value (kv : I2PString * I2PString) : string := (I2PString_Data kv.2).1.

(** The key of [r] is below the key of [r'], by raw byte value. *)
Definition key_lt (r r' : I2PString * I2PString) : Prop :=
  Is_true (String.ltb (record_key r) (record_key r')).

(** [out] is the serialization of the well-formed records [recs], in this
    order, behind the size field. *)
Definition emits (out : list byte) (recs : list (I2PString * I2PString)) : Prop :=
  Forall wf_record recs ∧ out = Mapping_Data (ValuesToMapping recs).

(** [recs] are the entries of the map [m], each once. *)
Definition records_of (m : gmap string string) (recs : list (I2PString * I2PString))
  : Prop :=
  List.map (λ r, (record_key r, record_value r)) recs ≡ₚ map_to_list m.

(** A key and its value have at most 255 bytes each. *)
Definition fits_pair (kv : string * string) : Prop :=
  len (list_byte_of_string kv.1) <= 255 ∧ len (list_byte_of_string kv.2) <= 255.

(** Every key and value of [m] has at most 255 bytes. *)
Definition fits (m : gmap string string) : Prop :=
  ∀ k v, m !! k = Some v ->
         len (list_byte_of_string k) <= 255 ∧ len (list_byte_of_string v) <= 255.

End Data.

(** ** Options *)

Module Opts.

(** Go maps are references: the store holds the contents of every map made
    so far, a map reference is an index into it, and [None] is the nil
    map. *)
Abbreviation store := (list (gmap string string)).
Abbreviation mapref := (option nat).

(** A computation that reads and changes the store, or panics. *)
Definition heapM (A : Type) : Type := store → exec (A * store).

#[global] Instance heapM_ret : MRet heapM := λ A a σ, Done (a, σ).

#[global] Instance heapM_bind : MBind heapM := λ A B k m σ,
  match m σ with
  | Done (a, σ') => k a σ'
  | Panic f => Panic f
  end.

Definition panic {A} (f : fault) : heapM A := λ _, Panic f.

Definition lift {A} (m : exec A) : heapM A := λ σ,
  match m with
  | Done a => Done (a, σ)
  | Panic f => Panic f
  end.

(** [make(map[string]string)] *)
Definition map_make : heapM mapref := λ σ, Done (Some (length σ), σ ++ [∅]).

(** The contents of a map; the nil map reads as the empty map. *)
Definition map_read (r : mapref) : heapM (gmap string string) := λ σ,
  match r with
  | None => Done (∅, σ)
  | Some l =>
      match σ !! l with
      | Some m => Done (m, σ)
      | None => Panic InvalidReference
      end
  end.

(** [len(m)] *)
Definition map_len (r : mapref) : heapM Z :=
  m ← map_read r; mret (Z.of_nat (size m)).

(** [v, ok := m[key]] *)
Definition map_index (r : mapref) (key : string) : heapM (string * bool) :=
  m ← map_read r;
  mret (match m !! key with Some v => (v, true) | None => (EmptyString, false) end).

(** [m[key] = value]; panics on the nil map. *)
Definition map_assign (r : mapref) (key value : string) : heapM unit := λ σ,
  match r with
  | None => Panic NilMapAssignment
  | Some l =>
      match σ !! l with
      | Some m => Done (tt, <[l := <[key := value]> m]> σ)
      | None => Panic InvalidReference
      end
  end.

(** [delete(m, key)] *)
Definition map_delete (r : mapref) (key : string) : heapM unit := λ σ,
  match r with
  | None => Done (tt, σ)
  | Some l =>
      match σ !! l with
      | Some m => Done (tt, <[l := delete key m]> σ)
      | None => Panic InvalidReference
      end
  end.

(** The entries a [for k, v := range m] loop visits. Go fixes no order of
    the visits; the model takes the order of [map_to_list]. *)
Definition map_range (r : mapref) : heapM (list (string * string)) :=
  m ← map_read r; mret (map_to_list m).

(** A [for _, x := range xs] loop. *)
Fixpoint for_each {A} (xs : list A) (body : A → heapM unit) : heapM unit :=
  match xs with
  | [] => mret tt
  | x :: xs' => _ ← body x; for_each xs' body
  end.

(** The struct [Options]. A receiver of type pointer-to-Options is an
    [option Options]: [None] is the nil pointer, [Some o] a pointer to a
    struct with contents [o]. *)
Record Options : Type := mkOptions {
  mapping : option Data.Mapping;
  values : mapref
}.

(** The errors of [OptionsFromBytes] and [Bytes]: the data is too short for
    the size field, or the error of the mapping package, wrapped. *)
Inductive OptionsError : Type :=
| TooShortForSize (got : Z)
| ParseFailed (e : Data.MappingError)
| CreateFailed (e : Data.EncodeError).

Definition EmptyOptions : heapM Options :=
  vs ← map_make; mret (mkOptions None vs).

(** [rawData[i]] *)
Definition index (s : list byte) (i : nat) : exec byte :=
  match s !! i with
  | Some b => Done b
  | None => Panic IndexOutOfRange
  end.

(** The body of the loop of [OptionsFromBytes] over the pairs of the parsed
    mapping: a pair whose key or value has no data is skipped. *)
Definition store_pair (values : mapref) (pair : Data.I2PString * Data.I2PString)
  : heapM unit :=
  let '(keyStr, keyErr) := Data.I2PString_Data pair.1 in
  let '(valStr, valErr) := Data.I2PString_Data pair.2 in
  match keyErr, valErr with
  | None, None => map_assign values keyStr valStr
  | _, _ => mret tt
  end.

Definition OptionsFromBytes (rawData : list byte)
  : heapM (option Options * Z * option OptionsError) :=
  if len rawData <? 2 then mret (None, 0, Some (TooShortForSize (len rawData)))
  else
    b0 ← lift (index rawData 0);
    b1 ← lift (index rawData 1);
    let size := Z.lor (Z.shiftl (byte_to_Z b0) 8) (byte_to_Z b1) in
    if size =? 0 then
      vs ← map_make; mret (Some (mkOptions None vs), 2, None)
    else
      let '(mapping, remainder, errs) := Data.ReadMapping rawData in
      match errs with
      | e :: _ => mret (None, 0, Some (ParseFailed e))
      | [] =>
          let consumed := len rawData - len remainder in
          values ← map_make;
          let mappingValues := Data.Values mapping in
          _ ← for_each mappingValues (store_pair values);
          mret (Some (mkOptions (Some mapping) values), consumed, None)
      end.

(** [[]byte{0x00, 0x00}] *)
Definition empty_mapping_bytes : list byte := [Byte.x00; Byte.x00].

Definition Bytes (o : option Options) : heapM (list byte * option OptionsError) :=
  match o with
  | None => mret (empty_mapping_bytes, None)
  | Some o =>
      n ← map_len (values o);
      if n =? 0 then mret (empty_mapping_bytes, None)
      else
        match mapping o with
        | Some mp => mret (Data.Mapping_Data mp, None)
        | None =>
            m ← map_read (values o);
            match Data.GoMapToMapping m with
            | (_, Some err) => mret ([], Some (CreateFailed err))
            | (Some mp, None) => mret (Data.Mapping_Data mp, None)
            | (None, None) => panic NilDereference
            end
        end
  end.

Definition Len (o : option Options) : heapM Z :=
  match o with
  | None => mret 2
  | Some o' =>
      n ← map_len (values o');
      if n =? 0 then mret 2
      else
        match mapping o' with
        | Some mp => mret (len (Data.Mapping_Data mp))
        | None =>
            '(data, err) ← Bytes o;
            match err with
            | Some _ => mret 2
            | None => mret (len data)
            end
        end
  end.

Definition IsEmpty (o : option Options) : heapM bool :=
  match o with
  | None => mret true
  | Some o => n ← map_len (values o); mret (n =? 0)
  end.

Definition Get (o : option Options) (key : string) : heapM string :=
  match o with
  | None => mret EmptyString
  | Some o =>
      match values o with
      | None => mret EmptyString
      | Some _ => '(v, _) ← map_index (values o) key; mret v
      end
  end.

(** The method [Set] ([Set] alone is a keyword of Rocq). It changes the
    struct its receiver points to: the result is the contents of that struct
    after the call. *)
Definition Set_ (o : option Options) (key value : string) : heapM Options :=
  match o with
  | None => panic NilDereference
  | Some o =>
      vs ← match values o with
           | None => map_make
           | Some _ => mret (values o)
           end;
      _ ← map_assign vs key value;
      mret (mkOptions None vs)
  end.

Definition Has (o : option Options) (key : string) : heapM bool :=
  match o with
  | None => mret false
  | Some o =>
      match values o with
      | None => mret false
      | Some _ => '(_, ok) ← map_index (values o) key; mret ok
      end
  end.

Definition ToMap (o : option Options) : heapM mapref :=
  match o with
  | None => map_make
  | Some o =>
      match values o with
      | None => map_make
      | Some _ =>
          result ← map_make;
          entries ← map_range (values o);
          _ ← for_each entries (λ kv, map_assign result kv.1 kv.2);
          mret result
      end
  end.

Definition NewOptions (m : mapref) : heapM Options :=
  match m with
  | None => EmptyOptions
  | Some _ =>
      vs ← map_make;
      entries ← map_range m;
      _ ← for_each entries (λ kv, map_assign vs kv.1 kv.2);
      mret (mkOptions None vs)
  end.

(** The value a computation returns, without the store it leaves. *)
Definition run {A} (m : heapM A) (σ : store) : exec A :=
  match m σ with
  | Done (a, _) => Done a
  | Panic f => Panic f
  end.

(** The size field of a mapping on the wire, "unsigned 16-bit big-endian", and
    the region of that many bytes after it. *)
Definition wire_size (raw : list byte) : Z := be16_value (byte_at raw 0) (byte_at raw 1).

Definition region (raw : list byte) : list byte :=
  take (Z.to_nat (wire_size raw)) (drop 2 raw).

(** The map a sequence of assignments builds from [m]: a later assignment to
    a key replaces an earlier one. *)
Definition assign_all (m : gmap string string) (kvs : list (string * string))
  : gmap string string :=
  foldl (λ acc kv, <[kv.1 := kv.2]> acc) m kvs.

(** The keys and values of a sequence of records, the last record of a key
    winning. *)
Definition last_write_wins (recs : list (Data.I2PString * Data.I2PString))
  : gmap string string :=
  assign_all ∅ (List.map (λ r, (Data.record_key r, Data.record_value r)) recs).

(** The contents of the map a reference denotes; the nil map has none. *)
Definition deref (r : mapref) (σ : store) : option (gmap string string) :=
  match r with
  | None => Some ∅
  | Some l => σ !! l
  end.

(** The entries a receiver holds; the nil receiver has none. *)
Definition entries (o : option Options) (σ : store) : option (gmap string string) :=
  match o with
  | None => Some ∅
  | Some o' => deref (values o') σ
  end.

(** What can be observed of an [Options] value is the same in two stores. *)
Definition same_view (o : option Options) (σ1 σ2 : store) : Prop :=
  (∀ k, run (Get o k) σ1 = run (Get o k) σ2) ∧
  (∀ k, run (Has o k) σ1 = run (Has o k) σ2) ∧
  run (IsEmpty o) σ1 = run (IsEmpty o) σ2 ∧
  run (Bytes o) σ1 = run (Bytes o) σ2 ∧
  run (Len o) σ1 = run (Len o) σ2.

(** The entry of [m] with the greatest key, by raw byte value: the one
    [Bytes] writes last. *)
Definition last_entry (m : gmap string string) (k v : string) : Prop :=
  m !! k = Some v ∧ ∀ k', is_Some (m !! k') -> Is_true (String.leb k' k).

(** Wire bytes used as examples: the single pair [foo=bar], and the pairs
    [b=2] and [a=1] in this order. *)
Definition foo_bar_wire : list byte :=
  [Byte.x00; Byte.x0a; Byte.x03; Byte.x66; Byte.x6f; Byte.x6f; Byte.x3d;
   Byte.x03; Byte.x62; Byte.x61; Byte.x72; Byte.x3b].

Definition b_a_wire : list byte :=
  [Byte.x00; Byte.x0c;
   Byte.x01; Byte.x62; Byte.x3d; Byte.x01; Byte.x32; Byte.x3b;
   Byte.x01; Byte.x61; Byte.x3d; Byte.x01; Byte.x31; Byte.x3b].

(** The bytes [Bytes] gives for the keys [a], [b] and [c]. *)
Definition a_b_c_wire : list byte :=
  [Byte.x00; Byte.x12;
   Byte.x01; Byte.x61; Byte.x3d; Byte.x01; Byte.x31; Byte.x3b;
   Byte.x01; Byte.x62; Byte.x3d; Byte.x01; Byte.x32; Byte.x3b;
   Byte.x01; Byte.x63; Byte.x3d; Byte.x01; Byte.x33; Byte.x3b].

(** The pairs [a=1] and [a=2] in this order: one key, two records. *)
Definition a_a_wire : list byte :=
  [Byte.x00; Byte.x0c;
   Byte.x01; Byte.x61; Byte.x3d; Byte.x01; Byte.x31; Byte.x3b;
   Byte.x01; Byte.x61; Byte.x3d; Byte.x01; Byte.x32; Byte.x3b].

(** The key [a] with the empty value, a record of five bytes; and the pair
    [a=1] followed by the key [b] with the empty value. *)
Definition a_empty_wire : list byte :=
  [Byte.x00; Byte.x05; Byte.x01; Byte.x61; Byte.x3d; Byte.x00; Byte.x3b].



End Opts.

(** * Properties *)

(** ** Bytes, slices and big-endian integers *)

Section GoRuntime.

Lemma byte_to_Z_range (b : byte) : 0 <= byte_to_Z b <= 255.
Proof.
  unfold byte_to_Z. pose proof (Byte.to_N_bounded b). lia.
Qed.

Lemma byte_to_of_Z (z : Z) : byte_to_Z (byte_of_Z z) = z mod 256.
Proof.
  unfold byte_to_Z, byte_of_Z.
  pose proof (Z.mod_pos_bound z 256 ltac:(lia)) as Hz.
  destruct (Byte.of_N (Z.to_N (z mod 256))) as [b|] eqn:E.
  - apply Byte.to_of_N in E. rewrite E. lia.
  - apply Byte.of_N_None_iff in E. lia.
Qed.

Lemma byte_of_to_Z (b : byte) : byte_of_Z (byte_to_Z b) = b.
Proof.
  unfold byte_of_Z. pose proof (byte_to_Z_range b) as Hb.
  rewrite Z.mod_small by lia. unfold byte_to_Z.
  rewrite N2Z.id, Byte.of_to_N. reflexivity.
Qed.

Lemma len_app {A} (l k : list A) : len (l ++ k) = len l + len k.
Proof. unfold len. rewrite length_app. lia. Qed.

Lemma len_nonneg {A} (l : list A) : 0 <= len l.
Proof. unfold len. lia. Qed.

Lemma len_cons {A} (x : A) (l : list A) : len (x :: l) = 1 + len l.
Proof. unfold len. simpl length. lia. Qed.

Lemma len_nil {A} : len (@nil A) = 0.
Proof. reflexivity. Qed.

Lemma slice_in_range {A} (s : list A) (lo hi : Z) :
  0 <= lo -> lo <= hi -> hi <= len s ->
  slice s lo hi = Done (take (Z.to_nat (hi - lo)) (drop (Z.to_nat lo) s)).
Proof.
  intros H1 H2 H3. unfold slice.
  destruct (Z.leb_spec 0 lo); [|lia].
  destruct (Z.leb_spec lo hi); [|lia].
  destruct (Z.leb_spec hi (len s)); [|lia].
  reflexivity.
Qed.

Lemma make_bytes_nonneg (n : Z) :
  0 <= n -> make_bytes n = Done (replicate (Z.to_nat n) Byte.x00).
Proof.
  intros Hn. unfold make_bytes. destruct (Z.ltb_spec n 0); [lia|reflexivity].
Qed.

(** Copying a source that fills the whole destination yields the source. *)
Lemma copy_at_whole (buf src : list byte) :
  length src = length buf -> copy_at buf 0 src = src.
Proof.
  intros Hl. unfold copy_at. rewrite take_0, Nat.sub_0_r, Nat.add_0_l.
  rewrite take_ge, drop_ge, app_nil_r by lia. reflexivity.
Qed.

(** Copying into the zeroed tail of a buffer, just after what was written. *)
Lemma copy_at_tail (pre src : list byte) (n : nat) :
  (length src <= n)%nat ->
  copy_at (pre ++ replicate n Byte.x00) (length pre) src
  = (pre ++ src) ++ replicate (n - length src) Byte.x00.
Proof.
  intros Hl. unfold copy_at.
  rewrite take_app_length, length_app, length_replicate.
  replace (length pre + n - length pre)%nat with n by lia.
  rewrite take_ge by lia.
  rewrite drop_app_add', drop_replicate by reflexivity.
  rewrite <- app_assoc. reflexivity.
Qed.

Lemma lor_shiftl (k hi lo : Z) :
  0 <= k -> 0 <= lo < 2 ^ k -> 0 <= hi -> Z.lor lo (Z.shiftl hi k) = hi * 2 ^ k + lo.
Proof.
  intros Hk Hlo Hhi. rewrite Z.shiftl_mul_pow2 by lia.
  rewrite Z.lor_comm, <- Z.add_nocarry_lor; [lia|].
  apply Z.bits_inj'. intros n Hn. rewrite Z.land_spec, Z.bits_0.
  destruct (Z.lt_ge_cases n k).
  - rewrite Z.mul_pow2_bits_low by lia. reflexivity.
  - replace (Z.testbit lo n) with false; [apply andb_false_r|].
    symmetry. destruct (Z.eq_dec lo 0) as [->|]; [apply Z.bits_0|].
    apply Z.bits_above_log2; [lia|].
    assert (Z.log2 lo < k); [|lia]. apply Z.log2_lt_pow2; lia.
Qed.

Lemma BigEndian_Uint32_value (b0 b1 b2 b3 : byte) (rest : list byte) :
  BigEndian_Uint32 (b0 :: b1 :: b2 :: b3 :: rest)
  = Done (byte_to_Z b0 * 2 ^ 24 + byte_to_Z b1 * 2 ^ 16 + byte_to_Z b2 * 2 ^ 8 + byte_to_Z b3).
Proof.
  pose proof (byte_to_Z_range b0). pose proof (byte_to_Z_range b1).
  pose proof (byte_to_Z_range b2). pose proof (byte_to_Z_range b3).
  unfold BigEndian_Uint32. f_equal.
  rewrite (lor_shiftl 8) by lia.
  rewrite (lor_shiftl 16) by lia.
  rewrite (lor_shiftl 24) by lia. lia.
Qed.

Lemma BigEndian_Uint16_value (b0 b1 : byte) (rest : list byte) :
  BigEndian_Uint16 (b0 :: b1 :: rest) = Done (byte_to_Z b0 * 2 ^ 8 + byte_to_Z b1).
Proof.
  pose proof (byte_to_Z_range b0). pose proof (byte_to_Z_range b1).
  unfold BigEndian_Uint16. f_equal. rewrite (lor_shiftl 8) by lia. lia.
Qed.

Lemma be32_bytes_value (x : Z) (rest : list byte) :
  0 <= x < 2 ^ 32 -> BigEndian_Uint32 (be32_bytes x ++ rest) = Done x.
Proof.
  intros Hx. unfold be32_bytes. simpl app. rewrite BigEndian_Uint32_value.
  rewrite !byte_to_of_Z, !Z.shiftr_div_pow2 by lia. f_equal.
  change (2 ^ 24) with 16777216. change (2 ^ 16) with 65536. change (2 ^ 8) with 256.
  change (2 ^ 32) with 4294967296 in Hx.
  Z.div_mod_to_equations. lia.
Qed.

Lemma be16_bytes_value (x : Z) (rest : list byte) :
  0 <= x < 2 ^ 16 -> BigEndian_Uint16 (be16_bytes x ++ rest) = Done x.
Proof.
  intros Hx. unfold be16_bytes. simpl app. rewrite BigEndian_Uint16_value.
  rewrite !byte_to_of_Z, !Z.shiftr_div_pow2 by lia. f_equal.
  change (2 ^ 8) with 256. change (2 ^ 16) with 65536 in Hx.
  Z.div_mod_to_equations. lia.
Qed.

Lemma exec_bind_Done {A B} (a : A) (k : A → exec B) : Done a ≫= k = k a.
Proof. reflexivity. Qed.

Lemma len_replicate {A} (n : nat) (x : A) : len (replicate n x) = Z.of_nat n.
Proof. unfold len. rewrite length_replicate. reflexivity. Qed.

Lemma copy_from_tail (pre src : list byte) (n : nat) (lo : Z) :
  lo = len pre -> (length src <= n)%nat ->
  copy_from (pre ++ replicate n Byte.x00) lo src
  = Done ((pre ++ src) ++ replicate (n - length src) Byte.x00).
Proof.
  intros -> Hn. unfold copy_from, slice_from.
  pose proof (len_nonneg pre).
  rewrite slice_in_range; rewrite ?len_app, ?len_replicate; try lia.
  rewrite exec_bind_Done. unfold len. rewrite Nat2Z.id, copy_at_tail by lia.
  reflexivity.
Qed.

Lemma PutUint32_at_tail (pre : list byte) (n : nat) (lo hi v : Z) :
  lo = len pre -> hi = lo + 4 -> (4 <= n)%nat ->
  PutUint32_at (pre ++ replicate n Byte.x00) lo hi v
  = Done ((pre ++ be32_bytes v) ++ replicate (n - 4) Byte.x00).
Proof.
  intros -> -> Hn. unfold PutUint32_at.
  pose proof (len_nonneg pre).
  rewrite slice_in_range; rewrite ?len_app, ?len_replicate; try lia.
  rewrite exec_bind_Done.
  replace (len pre + 4 - len pre) with 4 by lia.
  unfold len at 1. rewrite length_take, length_drop, length_app, length_replicate.
  unfold len. rewrite Nat2Z.id.
  destruct (Z.ltb_spec (Z.of_nat (Z.to_nat 4 `min` (length pre + n - length pre))) 4); [lia|].
  rewrite copy_at_tail by (simpl; lia). reflexivity.
Qed.

Lemma PutUint16_at_tail (pre : list byte) (n : nat) (lo hi v : Z) :
  lo = len pre -> hi = lo + 2 -> (2 <= n)%nat ->
  PutUint16_at (pre ++ replicate n Byte.x00) lo hi v
  = Done ((pre ++ be16_bytes v) ++ replicate (n - 2) Byte.x00).
Proof.
  intros -> -> Hn. unfold PutUint16_at.
  pose proof (len_nonneg pre).
  rewrite slice_in_range; rewrite ?len_app, ?len_replicate; try lia.
  rewrite exec_bind_Done.
  replace (len pre + 2 - len pre) with 2 by lia.
  unfold len at 1. rewrite length_take, length_drop, length_app, length_replicate.
  unfold len. rewrite Nat2Z.id.
  destruct (Z.ltb_spec (Z.of_nat (Z.to_nat 2 `min` (length pre + n - length pre))) 2); [lia|].
  rewrite copy_at_tail by (simpl; lia). reflexivity.
Qed.

End GoRuntime.

(** ** Offline signature block *)

Section OfflineSignatureCodec.

Import Offline.

Lemma publicKeyLength_cases (t : Z) :
  publicKeyLengthForSigType t ≠ 0 -> t ∈ [0; 1; 2; 3; 7; 11].
Proof.
  unfold publicKeyLengthForSigType. intros H.
  repeat case_match; try done; set_solver.
Qed.

Lemma publicKeyLength_range (t : Z) : 0 <= publicKeyLengthForSigType t <= 132.
Proof. unfold publicKeyLengthForSigType. repeat case_match; lia. Qed.

Lemma signatureLength_range (t : Z) : 0 <= signatureLengthForSigType t <= 132.
Proof. unfold signatureLengthForSigType. repeat case_match; lia. Qed.


Lemma Bytes_layout (v : OfflineSignature) :
  Bytes v = Done (be32_bytes (uint32 (Time_Unix (Expires v))) ++
                  be16_bytes (TransientSigType v) ++
                  TransientPublicKey v ++ Signature v).
Proof.
  unfold Bytes. destruct v as [e t key sig]; cbn [Expires TransientSigType TransientPublicKey Signature].
  pose proof (len_nonneg key). pose proof (len_nonneg sig).
  rewrite make_bytes_nonneg by lia. rewrite exec_bind_Done.
  replace (Z.to_nat (6 + len key + len sig)) with (6 + length key + length sig)%nat
    by (unfold len; lia).
  change (replicate (6 + length key + length sig) Byte.x00)
    with ([] ++ replicate (6 + length key + length sig) Byte.x00).
  rewrite (PutUint32_at_tail [] _ 0 4) by (reflexivity || lia).
  rewrite exec_bind_Done.
  rewrite (PutUint16_at_tail _ _ 4 6) by (reflexivity || lia).
  rewrite exec_bind_Done.
  rewrite (copy_from_tail _ key _ 6) by (reflexivity || lia).
  rewrite exec_bind_Done.
  rewrite (copy_from_tail _ sig) by (rewrite ?len_app; unfold len; simpl; lia).
  rewrite exec_bind_Done.
  replace (6 + length key + length sig - 4 - 2 - length key - length sig)%nat with 0%nat by lia.
  simpl replicate. rewrite app_nil_r, <- !app_assoc. reflexivity.
Qed.

Lemma time_Unix_whole (sec : Z) : time_Unix sec 0 = mkTime sec 0.
Proof. reflexivity. Qed.

Lemma FromBytes_header (b0 b1 b2 b3 b4 b5 : byte) (rest : list byte) (dst : Z) :
  let t := be16_value b4 b5 in
  let pk := publicKeyLengthForSigType t in
  let sl := signatureLengthForSigType dst in
  OfflineSignatureFromBytes (b0 :: b1 :: b2 :: b3 :: b4 :: b5 :: rest) dst =
    if pk =? 0 then Done (None, 0, Some (UnknownTransientSigType t))
    else if sl =? 0 then Done (None, 0, Some (UnknownDestinationSigType dst))
    else if len rest <? pk + sl
         then Done (None, 0, Some (DataTooShort (6 + pk + sl) (6 + len rest)))
         else Done (Some (mkOfflineSignature (mkTime (be32_value b0 b1 b2 b3) 0) t
                            (take (Z.to_nat pk) rest)
                            (take (Z.to_nat sl) (drop (Z.to_nat pk) rest))),
                    6 + pk + sl, None).
Proof.
  intros t pk sl. unfold OfflineSignatureFromBytes.
  pose proof (len_nonneg rest) as Hrest.
  pose proof (publicKeyLength_range t) as Hpk. fold pk in Hpk.
  pose proof (signatureLength_range dst) as Hsl. fold sl in Hsl.
  set (data := b0 :: b1 :: b2 :: b3 :: b4 :: b5 :: rest).
  assert (Hlen : len data = 6 + len rest) by (unfold data; rewrite !len_cons; lia).
  rewrite Hlen.
  destruct (Z.ltb_spec (6 + len rest) 6); [lia|].
  rewrite (slice_in_range data 0 4), exec_bind_Done by lia.
  change (take (Z.to_nat (4 - 0)) (drop (Z.to_nat 0) data)) with [b0; b1; b2; b3].
  rewrite BigEndian_Uint32_value, exec_bind_Done.
  rewrite (slice_in_range data 4 6), exec_bind_Done by lia.
  change (take (Z.to_nat (6 - 4)) (drop (Z.to_nat 4) data)) with [b4; b5].
  rewrite BigEndian_Uint16_value, exec_bind_Done.
  fold (be16_value b4 b5). fold t. fold pk. fold sl.
  destruct (Z.eqb_spec pk 0); [reflexivity|].
  destruct (Z.eqb_spec sl 0); [reflexivity|].
  destruct (Z.ltb_spec (6 + len rest) (6 + pk + sl)).
  - destruct (Z.ltb_spec (len rest) (pk + sl)); [reflexivity|lia].
  - destruct (Z.ltb_spec (len rest) (pk + sl)); [lia|].
    rewrite (make_bytes_nonneg pk), exec_bind_Done by lia.
    rewrite (slice_in_range data 6 (6 + pk)), exec_bind_Done by lia.
    rewrite (make_bytes_nonneg sl), exec_bind_Done by lia.
    rewrite (slice_in_range data (6 + pk) (6 + pk + sl)), exec_bind_Done by lia.
    replace (6 + pk - 6) with pk by lia.
    replace (6 + pk + sl - (6 + pk)) with sl by lia.
    replace (Z.to_nat (6 + pk)) with (6 + Z.to_nat pk)%nat by lia.
    change (drop (Z.to_nat 6) data) with rest.
    change (drop (6 + Z.to_nat pk) data) with (drop (Z.to_nat pk) rest).
    unfold len in *.
    rewrite !copy_at_whole; [reflexivity| |].
    + rewrite length_replicate, length_take, length_drop. lia.
    + rewrite length_replicate, length_take. lia.
Qed.

Lemma be32_value_bytes (x : Z) :
  0 <= x < 2 ^ 32 ->
  be32_value (byte_of_Z (Z.shiftr x 24)) (byte_of_Z (Z.shiftr x 16))
             (byte_of_Z (Z.shiftr x 8)) (byte_of_Z x) = x.
Proof.
  intros Hx. pose proof (be32_bytes_value x [] Hx) as H.
  unfold be32_bytes in H. simpl app in H. rewrite BigEndian_Uint32_value in H.
  injection H as H. exact H.
Qed.

Lemma be16_value_bytes (x : Z) :
  0 <= x < 2 ^ 16 ->
  be16_value (byte_of_Z (Z.shiftr x 8)) (byte_of_Z x) = x.
Proof.
  intros Hx. pose proof (be16_bytes_value x [] Hx) as H.
  unfold be16_bytes in H. simpl app in H. rewrite BigEndian_Uint16_value in H.
  injection H as H. exact H.
Qed.

Lemma uint32_range (x : Z) : 0 <= uint32 x < 2 ^ 32.
Proof. unfold uint32. apply Z.mod_pos_bound. lia. Qed.

Lemma publicKeyLength_known_u16 (t : Z) :
  publicKeyLengthForSigType t ≠ 0 -> 0 <= t < 2 ^ 16.
Proof.
  intros H. apply publicKeyLength_cases in H.
  repeat (apply elem_of_cons in H as [->|H]; [lia|]).
  by apply elem_of_nil in H.
Qed.

(** Decoding what [Bytes] wrote, for a value whose field lengths are those of
    its signature types: every field comes back, the expiry reduced to the 32
    bits that are written. *)
Lemma decode_encode (v : OfflineSignature) (dst : Z) :
  len (TransientPublicKey v) = publicKeyLengthForSigType (TransientSigType v) ->
  len (Signature v) = signatureLengthForSigType dst ->
  publicKeyLengthForSigType (TransientSigType v) ≠ 0 ->
  signatureLengthForSigType dst ≠ 0 ->
  ∃ bs, Bytes v = Done bs ∧
        len bs = 6 + len (TransientPublicKey v) + len (Signature v) ∧
        OfflineSignatureFromBytes bs dst =
          Done (Some (mkOfflineSignature
                        (mkTime (uint32 (Time_Unix (Expires v))) 0)
                        (TransientSigType v) (TransientPublicKey v) (Signature v)),
                len bs, None).
Proof.
  destruct v as [e t key sig]. cbn [Expires TransientSigType TransientPublicKey Signature].
  intros Hkey Hsig Hpk Hsl.
  eexists. split; [apply Bytes_layout|].
  cbn [Expires TransientSigType TransientPublicKey Signature].
  unfold be32_bytes, be16_bytes. cbn [app].
  split; [rewrite !len_cons, len_app; lia|].
  rewrite FromBytes_header.
  rewrite be16_value_bytes by (by apply publicKeyLength_known_u16).
  rewrite be32_value_bytes by apply uint32_range.
  destruct (Z.eqb_spec (publicKeyLengthForSigType t) 0); [done|].
  destruct (Z.eqb_spec (signatureLengthForSigType dst) 0); [done|].
  rewrite <- Hkey, <- Hsig, len_app.
  destruct (Z.ltb_spec (len key + len sig) (len key + len sig)); [lia|].
  rewrite !len_cons, len_app.
  unfold len. rewrite !Nat2Z.id, take_app_length, drop_app_length, firstn_all.
  do 3 f_equal. lia.
Qed.


(** C3. [OfflineSignatureFromBytes] decides in this order: fewer than six
    bytes give the header-too-short error; an unknown transient signature
    type (public key length 0) or an unknown destination signature type
    (signature length 0) gives the unknown-type error of that role; fewer
    than [6 + pubKeyLen + sigLen] bytes give the too-short error with the
    required and the actual length; otherwise the block is decoded and
    exactly that many bytes are consumed. No input makes it panic. *)
Theorem offline_decode_case_analysis (data : list byte) (dst : Z) :
  let t := wire_sigtype data in
  let pk := publicKeyLengthForSigType t in
  let sl := signatureLengthForSigType dst in
  let total := 6 + pk + sl in
  OfflineSignatureFromBytes data dst =
    (if len data <? 6 then Done (None, 0, Some (HeaderTooShort (len data)))
     else if pk =? 0 then Done (None, 0, Some (UnknownTransientSigType t))
     else if sl =? 0 then Done (None, 0, Some (UnknownDestinationSigType dst))
     else if len data <? total then Done (None, 0, Some (DataTooShort total (len data)))
     else Done (Some (mkOfflineSignature
                        (mkTime (wire_expires data) 0) t
                        (take (Z.to_nat pk) (drop 6 data))
                        (take (Z.to_nat sl) (drop (6 + Z.to_nat pk) data))),
                total, None))
  ∧ ∃ r, OfflineSignatureFromBytes data dst = Done r.
Proof.
  intros t pk sl total.
  assert (Hshort : len data < 6 ->
            OfflineSignatureFromBytes data dst
            = Done (None, 0, Some (HeaderTooShort (len data)))).
  { intros Hlt. unfold OfflineSignatureFromBytes.
    destruct (Z.ltb_spec (len data) 6); [reflexivity|lia]. }
  destruct (Z.ltb_spec (len data) 6) as [Hlt|Hge].
  { rewrite Hshort by exact Hlt. eauto. }
  destruct data as [|b0 [|b1 [|b2 [|b3 [|b4 [|b5 rest]]]]]];
    try (exfalso; revert Hge; rewrite ?len_cons, ?len_nil; lia).
  rewrite FromBytes_header.
  change (wire_sigtype (b0 :: b1 :: b2 :: b3 :: b4 :: b5 :: rest))
    with (be16_value b4 b5) in t.
  change (wire_expires (b0 :: b1 :: b2 :: b3 :: b4 :: b5 :: rest))
    with (be32_value b0 b1 b2 b3).
  fold t. fold pk. fold sl.
  assert (Hl : len (b0 :: b1 :: b2 :: b3 :: b4 :: b5 :: rest) = 6 + len rest)
    by (rewrite !len_cons; lia).
  rewrite Hl. subst total.
  destruct (pk =? 0); [eauto|].
  destruct (sl =? 0); [eauto|].
  destruct (Z.ltb_spec (len rest) (pk + sl)), (Z.ltb_spec (6 + len rest) (6 + pk + sl));
    try lia; eauto.
Qed.

(** C4, as amended. A value whose key and signature have the lengths of a
    known transient and a known destination signature type, and whose expiry
    is a whole number of seconds in the unsigned 32-bit range, is decoded
    from its encoding unchanged, and the whole encoding is consumed. *)
Theorem offline_roundtrip (v : OfflineSignature) (dst : Z) :
  len (TransientPublicKey v) = publicKeyLengthForSigType (TransientSigType v) ->
  len (Signature v) = signatureLengthForSigType dst ->
  publicKeyLengthForSigType (TransientSigType v) ≠ 0 ->
  signatureLengthForSigType dst ≠ 0 ->
  0 <= Time_Unix (Expires v) < 2 ^ 32 ->
  nanos (Expires v) = 0 ->
  ∃ bs, Bytes v = Done bs ∧
        OfflineSignatureFromBytes bs dst = Done (Some v, len bs, None).
Proof.
  intros Hkey Hsig Hpk Hsl Hsec Hns.
  destruct (decode_encode v dst Hkey Hsig Hpk Hsl) as (bs & Hbs & _ & Hdec).
  exists bs. split; [exact Hbs|]. rewrite Hdec.
  destruct v as [[sec ns] t key sig]. cbn in *. subst ns.
  unfold uint32. rewrite Z.mod_small by lia. reflexivity.
Qed.

Lemma offline_roundtrip_witness :
  ∃ bs, Bytes ed25519_block = Done bs ∧
        OfflineSignatureFromBytes bs 7 = Done (Some ed25519_block, len bs, None).
Proof.
  apply (offline_roundtrip ed25519_block 7);
    try reflexivity; try (vm_compute; discriminate).
  vm_compute. split; [discriminate|reflexivity].
Defined.

(** C4 as stated fails twice: an expiry of 2^32 seconds is decoded as the
    epoch, and a transient type outside the table with an empty key meets the
    length conditions but is refused by the decoder. *)
Lemma offline_roundtrip_counterexample :
  (len (TransientPublicKey late_block)
     = publicKeyLengthForSigType (TransientSigType late_block) ∧
   len (Signature late_block) = signatureLengthForSigType 7 ∧
   signatureLengthForSigType 7 ≠ 0 ∧
   ∃ bs v', Bytes late_block = Done bs ∧
            OfflineSignatureFromBytes bs 7 = Done (Some v', len bs, None) ∧
            Expires v' = mkTime 0 0 ∧ v' ≠ late_block) ∧
  (len (TransientPublicKey untyped_block)
     = publicKeyLengthForSigType (TransientSigType untyped_block) ∧
   len (Signature untyped_block) = signatureLengthForSigType 7 ∧
   signatureLengthForSigType 7 ≠ 0 ∧
   ∃ bs, Bytes untyped_block = Done bs ∧
         OfflineSignatureFromBytes bs 7
         = Done (None, 0, Some (UnknownTransientSigType 255))).
Proof.
  split.
  - split; [reflexivity|]. split; [reflexivity|]. split; [discriminate|].
    eexists _, _. split; [vm_compute; reflexivity|].
    split; [vm_compute; reflexivity|]. split; [reflexivity|discriminate].
  - split; [reflexivity|]. split; [reflexivity|]. split; [discriminate|].
    eexists. split; [vm_compute; reflexivity|]. vm_compute. reflexivity.
Qed.

(** C8. [Bytes] writes the low 32 bits of the expiry's Unix seconds,
    big-endian, in front of the block. So for a value the decoder accepts, the
    decoded expiry is these 32 bits with no fraction of a second: it equals
    the original exactly when the original is a whole number of seconds in
    [0, 2^32), and otherwise the seconds differ by a non-zero multiple of
    2^32. *)
Theorem offline_expires_mod_2_32 (v : OfflineSignature) (dst : Z) :
  (∃ rest, Bytes v = Done (be32_bytes (Time_Unix (Expires v) mod 2 ^ 32) ++ rest)) ∧
  (len (TransientPublicKey v) = publicKeyLengthForSigType (TransientSigType v) ->
   len (Signature v) = signatureLengthForSigType dst ->
   publicKeyLengthForSigType (TransientSigType v) ≠ 0 ->
   signatureLengthForSigType dst ≠ 0 ->
   ∃ bs v', Bytes v = Done bs ∧
            OfflineSignatureFromBytes bs dst = Done (Some v', len bs, None) ∧
            Expires v' = mkTime (Time_Unix (Expires v) mod 2 ^ 32) 0 ∧
            (Expires v' = Expires v ↔
               0 <= Time_Unix (Expires v) < 2 ^ 32 ∧ nanos (Expires v) = 0) ∧
            ∃ k, Time_Unix (Expires v) - Time_Unix (Expires v') = k * 2 ^ 32 ∧
                 (k = 0 ↔ 0 <= Time_Unix (Expires v) < 2 ^ 32)).
Proof.
  split.
  { eexists. rewrite Bytes_layout. unfold uint32. reflexivity. }
  intros Hkey Hsig Hpk Hsl.
  destruct (decode_encode v dst Hkey Hsig Hpk Hsl) as (bs & Hbs & _ & Hdec).
  eexists bs, _. split; [exact Hbs|]. split; [exact Hdec|].
  destruct v as [[sec ns] t key sig]. cbn. unfold uint32.
  pose proof (Z.mod_pos_bound sec (2 ^ 32) ltac:(lia)) as Hm.
  pose proof (Z.div_mod sec (2 ^ 32) ltac:(lia)) as Hd.
  split; [reflexivity|]. split.
  - split.
    + intros H. injection H as H1 H2. split; [lia|congruence].
    + intros [H1 ->]. rewrite Z.mod_small by lia. reflexivity.
  - exists (sec / 2 ^ 32). split; [lia|]. split.
    + intros H0. rewrite H0 in Hd. lia.
    + intros H1. apply Z.div_small. lia.
Qed.

Lemma offline_expires_mod_2_32_witness :
  ∃ bs v', Bytes late_block = Done bs ∧
           OfflineSignatureFromBytes bs 7 = Done (Some v', len bs, None) ∧
           Expires v' = mkTime (Time_Unix (Expires late_block) mod 2 ^ 32) 0 ∧
           (Expires v' = Expires late_block ↔
              0 <= Time_Unix (Expires late_block) < 2 ^ 32 ∧
              nanos (Expires late_block) = 0) ∧
           ∃ k, Time_Unix (Expires late_block) - Time_Unix (Expires v') = k * 2 ^ 32 ∧
                (k = 0 ↔ 0 <= Time_Unix (Expires late_block) < 2 ^ 32).
Proof.
  apply (proj2 (offline_expires_mod_2_32 late_block 7));
    try reflexivity; vm_compute; discriminate.
Defined.

End OfflineSignatureCodec.

(** ** Address parser *)

Section AddressParser.

Import Addr.

Lemma Split_nonempty (s : string) : Split s ≠ [].
Proof. destruct s as [|c s]; simpl; [done|]. repeat case_match; done. Qed.

Lemma Split_no_colon (s : string) : has_colon s = false -> Split s = [s].
Proof.
  induction s as [|c s IH]; simpl; [done|].
  intros [Hc Hs]%orb_false_elim. rewrite Hc, (IH Hs). reflexivity.
Qed.

Lemma Split_with_port (d p : string) : Split (with_port d p) = Split d ++ Split p.
Proof.
  unfold with_port. induction d as [|c d IH]; simpl.
  - reflexivity.
  - destruct (Ascii.eqb c colon); [by rewrite IH|].
    rewrite IH. pose proof (Split_nonempty d).
    destruct (Split d); done.
Qed.

Lemma Join_Split (s : string) : Join (Split s) = s.
Proof.
  induction s as [|c s IH]; [done|]. cbn [Split].
  pose proof (Split_nonempty s) as Hne.
  destruct (Ascii.eqb_spec c colon) as [->|Hc].
  - destruct (Split s) as [|seg segs]; [done|].
    cbn [Join]. cbn [Join] in IH. rewrite IH. reflexivity.
  - destruct (Split s) as [|seg segs]; [done|].
    cbn [Join] in *. destruct segs; simpl; by rewrite <- IH.
Qed.

Lemma with_port_not_empty (d p : string) : String.eqb (with_port d p) EmptyString = false.
Proof. unfold with_port. destruct d; reflexivity. Qed.

Lemma has_colon_split (s : string) :
  has_colon s = true -> ∃ d p, s = with_port d p ∧ has_colon p = false.
Proof.
  induction s as [|c s IH]; [done|]. simpl.
  destruct (has_colon s) eqn:Hs.
  - intros _. destruct (IH eq_refl) as (d & p & -> & Hp).
    exists (String c d), p. done.
  - rewrite orb_false_r. intros ->%Ascii.eqb_eq.
    exists EmptyString, s. done.
Qed.

Lemma decimal_value_mono (s : string) (n : Z) :
  all_digits s = true -> 0 <= n -> n <= decimal_value s n.
Proof.
  revert n. induction s as [|c s IH]; intros n; simpl; [lia|].
  intros [Hc Hs]%andb_true_iff Hn. unfold is_digit in Hc.
  apply andb_true_iff in Hc as [H1%Z.leb_le H2%Z.leb_le].
  specialize (IH (10 * n + (char_code c - 48)) Hs). lia.
Qed.

Lemma cutoff10_value : cutoff10 = 1844674407370955162.
Proof. reflexivity. Qed.

(** The digit loop on the digits of a port that fits. *)
Lemma ParseUint_loop_digits (s : string) (n : Z) :
  0 <= n <= 65535 -> all_digits s = true -> decimal_value s n <= 65535 ->
  ParseUint_loop 10 (2 ^ 16 - 1) cutoff10 s n = (decimal_value s n, None).
Proof.
  revert n. induction s as [|c s IH]; intros n Hn; simpl; [done|].
  intros [Hc Hs]%andb_true_iff Hv. unfold is_digit in Hc. fold (char_code c).
  rewrite Hc. apply andb_true_iff in Hc as [H1%Z.leb_le H2%Z.leb_le].
  pose proof (decimal_value_mono s (10 * n + (char_code c - 48)) Hs ltac:(lia)) as Hm.
  destruct (Z.leb_spec 10 (char_code c - 48)); [lia|].
  destruct (Z.leb_spec cutoff10 n); [rewrite cutoff10_value in *; lia|].
  rewrite (Z.mod_small (n * 10)) by lia.
  rewrite (Z.mod_small (n * 10 + _)) by lia.
  destruct (Z.ltb_spec (n * 10 + (char_code c - 48)) (n * 10)); [lia|].
  destruct (Z.ltb_spec (2 ^ 16 - 1) (n * 10 + (char_code c - 48))); [simpl in *; lia|].
  simpl orb. cbv iota. rewrite IH; [f_equal; f_equal; lia|simpl in *; lia|done|].
  replace (n * 10) with (10 * n) by lia. done.
Qed.

(** The digit loop on anything else: some error. *)
Lemma ParseUint_loop_error (s : string) (n : Z) :
  0 <= n <= 65535 ->
  all_digits s && (decimal_value s n <=? 65535) = false ->
  ∃ v e, ParseUint_loop 10 (2 ^ 16 - 1) cutoff10 s n = (v, Some e).
Proof.
  revert n. induction s as [|c s IH]; intros n Hn; simpl.
  { intros Hbad. destruct (Z.leb_spec n 65535); [done|lia]. }
  intros Hbad. fold (char_code c). unfold is_digit in Hbad.
  destruct ((48 <=? char_code c) && (char_code c <=? 57)) eqn:Hc.
  - apply andb_true_iff in Hc as [H1%Z.leb_le H2%Z.leb_le].
    destruct (Z.leb_spec 10 (char_code c - 48)); [lia|].
    destruct (Z.leb_spec cutoff10 n); [eauto|].
    rewrite (Z.mod_small (n * 10)) by lia.
    rewrite (Z.mod_small (n * 10 + _)) by lia.
    destruct (_ || _) eqn:Hor; [eauto|].
    apply orb_false_elim in Hor as [_ Hor%Z.ltb_ge].
    apply IH; [simpl in *; lia|].
    replace (n * 10) with (10 * n) by lia. exact Hbad.
  - destruct ((97 <=? lower (char_code c)) && (lower (char_code c) <=? 122)) eqn:Hl; [|eauto].
    apply andb_true_iff in Hl as [H1%Z.leb_le H2%Z.leb_le].
    destruct (Z.leb_spec 10 (lower (char_code c) - 97 + 10)); [eauto|lia].
Qed.

Lemma ParseUint_port (p : string) :
  match port_value p with
  | Some n => ParseUint p 10 16 = (n, None) ∧ 0 <= n <= 65535
  | None => ∃ v e, ParseUint p 10 16 = (v, Some e)
  end.
Proof.
  unfold port_value, ParseUint. destruct p as [|c p]; [eauto|].
  change ((2 ^ 64 - 1) / 10 + 1) with cutoff10.
  destruct (all_digits (String c p) && _) eqn:Hp.
  - apply andb_true_iff in Hp as [Hd Hv%Z.leb_le].
    rewrite ParseUint_loop_digits by (done || lia).
    pose proof (decimal_value_mono _ 0 Hd ltac:(lia)). split; [done|lia].
  - apply ParseUint_loop_error; [lia|done].
Qed.

Lemma ParseI2PAddr_with_port (d p : string) :
  has_colon p = false ->
  ParseI2PAddr (with_port d p) =
    let '(port, err) := ParseUint p 10 16 in
    match err with
    | Some e => (None, Some (InvalidPort p e))
    | None => (Some (mkI2PAddr d (uint16 port)), None)
    end.
Proof.
  intros Hp. unfold ParseI2PAddr.
  rewrite with_port_not_empty, Split_with_port, (Split_no_colon p Hp).
  pose proof (Split_nonempty d) as Hne.
  rewrite len_app, last_last, removelast_last, Join_Split.
  destruct (Split d) as [|seg segs] eqn:Hd; [done|].
  rewrite !len_cons, len_nil. pose proof (len_nonneg segs).
  destruct (Z.eqb_spec (1 + len segs + (1 + 0)) 1); [lia|]. reflexivity.
Qed.

(** C7. A non-empty string without a colon is a destination with port 0.
    Otherwise the string is [d ++ ":" ++ p] with [p], the last segment, free
    of colons: when [p] is a non-empty string of decimal digits denoting at
    most 65535 the result is the destination [d], colons included, with that
    port; in every other case (a sign, any other non-digit, a larger number)
    the result is the invalid-port error naming [p]. *)
Theorem parse_address_cases :
  (∀ s, s ≠ EmptyString -> has_colon s = false ->
        ParseI2PAddr s = (Some (mkI2PAddr s 0), None)) ∧
  (∀ s, has_colon s = true -> ∃ d p, s = with_port d p ∧ has_colon p = false) ∧
  (∀ d p n, has_colon p = false -> port_value p = Some n ->
        ParseI2PAddr (with_port d p) = (Some (mkI2PAddr d n), None) ∧
        0 <= n <= 65535) ∧
  (∀ d p, has_colon p = false -> port_value p = None ->
        ∃ e, ParseI2PAddr (with_port d p) = (None, Some (InvalidPort p e))) ∧
  (∀ p n, port_value p = Some n ↔
        p ≠ EmptyString ∧ all_digits p = true ∧ decimal_value p 0 = n ∧ n <= 65535) ∧
  (∀ p, port_value (String "-" p) = None).
Proof.
  split_and!.
  - intros s Hne Hs. unfold ParseI2PAddr.
    destruct (String.eqb_spec s EmptyString); [done|].
    rewrite (Split_no_colon s Hs). reflexivity.
  - apply has_colon_split.
  - intros d p n Hp Hsome. rewrite ParseI2PAddr_with_port by done.
    pose proof (ParseUint_port p) as Hport. rewrite Hsome in Hport.
    destruct Hport as [-> Hn]. unfold uint16.
    rewrite Z.mod_small by (simpl; lia). done.
  - intros d p Hp Hnone. rewrite ParseI2PAddr_with_port by done.
    pose proof (ParseUint_port p) as Hport. rewrite Hnone in Hport.
    destruct Hport as (v & e & ->). eauto.
  - intros p n. split.
    + intros Hsome. unfold port_value in Hsome.
      destruct p as [|c p]; [done|].
      destruct (all_digits _ && _) eqn:Hp; [|done].
      apply andb_true_iff in Hp as [Hd Hv%Z.leb_le].
      injection Hsome as <-. done.
    + intros (Hne & Hd & <- & Hv). unfold port_value.
      destruct p as [|c p]; [done|].
      rewrite Hd. destruct (Z.leb_spec (decimal_value (String c p) 0) 65535); [done|lia].
  - intros p. reflexivity.
Qed.

Lemma parse_address_cases_witness :
  ParseI2PAddr "a:b:12345" = (Some (mkI2PAddr "a:b" 12345), None) ∧ 0 <= 12345 <= 65535.
Proof.
  apply (proj1 (proj2 (proj2 parse_address_cases)) "a:b" "12345" 12345); reflexivity.
Defined.

(** C10. A string that ends with a colon has an empty last segment: the
    parser answers with the invalid-port error naming the empty string, never
    with port 0. Whenever the parser accepts a string that contains a colon,
    the port is the number its non-empty last segment denotes. *)
Theorem parse_address_trailing_colon :
  (∀ d, ParseI2PAddr (with_port d EmptyString)
        = (None, Some (InvalidPort EmptyString ErrSyntax))) ∧
  (∀ s a, has_colon s = true -> ParseI2PAddr s = (Some a, None) ->
        ∃ d p, s = with_port d p ∧ has_colon p = false ∧ p ≠ EmptyString ∧
               port_value p = Some (Port a) ∧ Destination a = d).
Proof.
  split.
  - intros d. rewrite ParseI2PAddr_with_port by done. reflexivity.
  - intros s a Hs Hok.
    destruct (has_colon_split s Hs) as (d & p & -> & Hp).
    exists d, p. rewrite ParseI2PAddr_with_port in Hok by done.
    pose proof (ParseUint_port p) as Hport.
    destruct (port_value p) as [n|] eqn:Hv.
    + destruct Hport as [Hparse Hn]. rewrite Hparse in Hok.
      injection Hok as <-. cbn [Port Destination]. unfold uint16.
      rewrite Z.mod_small by (simpl; lia).
      repeat split; try done. by intros ->.
    + destruct Hport as (v & e & Hparse). rewrite Hparse in Hok. done.
Qed.

Lemma parse_address_trailing_colon_witness :
  ∃ d p, "example.i2p:8080"%string = with_port d p ∧ has_colon p = false ∧
         p ≠ EmptyString ∧ port_value p = Some 8080 ∧ "example.i2p"%string = d.
Proof.
  apply (proj2 parse_address_trailing_colon "example.i2p:8080"
           (mkI2PAddr "example.i2p" 8080)); reflexivity.
Defined.

End AddressParser.

(** ** Options mapping *)

Section OptionsMapping.

Import Data Opts.

Lemma ReadI2PString_sound (region s rest : list byte) :
  ReadI2PString region = Some (s, rest) ->
  region = s ++ rest ∧ Is_true (well_formed s).
Proof.
  unfold ReadI2PString. destruct region as [|n region]; [done|].
  destruct (Nat.ltb_spec (length region) (Z.to_nat (byte_to_Z n))); [done|].
  intros [= <- <-]. split.
  - simpl. by rewrite take_drop.
  - simpl. apply Is_true_true, Z.eqb_eq. unfold len.
    pose proof (byte_to_Z_range n). rewrite length_take. lia.
Qed.

Lemma ReadI2PString_complete (s rest : list byte) :
  Is_true (well_formed s) -> ReadI2PString (s ++ rest) = Some (s, rest).
Proof.
  destruct s as [|n content]; [done|]. simpl.
  intros Hn%Is_true_true%Z.eqb_eq. unfold len in Hn.
  rewrite Hn, Nat2Z.id, length_app.
  destruct (Nat.ltb_spec (length content + length rest) (length content)); [lia|].
  by rewrite take_app_length, drop_app_length.
Qed.

Lemma well_formed_len (s : I2PString) : Is_true (well_formed s) -> 1 <= len s.
Proof. destruct s; [done|]. rewrite len_cons. pose proof (len_nonneg s). lia. Qed.

Lemma record_bytes_len (r : I2PString * I2PString) :
  wf_record r -> 4 <= len (record_bytes r).
Proof.
  destruct r as [key val]. intros [Hk Hv]. cbn [fst snd] in *.
  apply well_formed_len in Hk, Hv. unfold record_bytes. cbn [fst snd].
  rewrite !len_app, !len_cons, len_nil. lia.
Qed.

(** What the parser accepts: the records it returns, one after the other,
    and after them fewer than six bytes that it has not read. The keys of the
    records differ from each other and from those seen before. *)
Lemma ReadMappingValues_sound (fuel : nat) (region : list byte) (seen : list string)
    (recs : list (I2PString * I2PString)) :
  (length region <= fuel)%nat ->
  ReadMappingValues fuel region seen = inr recs ->
  ∃ tail, region = flat_map record_bytes recs ++ tail ∧ len tail < 6 ∧
          Forall wf_record recs ∧ NoDup (record_key <$> recs) ∧
          ∀ r, r ∈ recs -> record_key r ∉ seen.
Proof.
  revert region seen recs. induction fuel as [|fuel IH]; intros region seen recs Hfuel.
  { destruct region; [|simpl in Hfuel; lia]. simpl. intros [= <-].
    exists []. split_and!; try done; [constructor|by intros r ?%elem_of_nil]. }
  cbn [ReadMappingValues].
  destruct (Z.ltb_spec (len region) 6) as [Hshort|Hlong].
  { intros [= <-]. exists region.
    split_and!; try done; [constructor|by intros r ?%elem_of_nil]. }
  destruct (ReadI2PString region) as [[key rest]|] eqn:Hk; [|done].
  apply ReadI2PString_sound in Hk as [Hreg Hkey].
  cbv zeta. case_bool_decide as Hseen; [done|].
  destruct rest as [|sep rest]; [done|].
  destruct (Byte.eqb sep equals_sign) eqn:Hsep; [|done].
  apply Byte.byte_dec_bl in Hsep as ->.
  destruct (ReadI2PString rest) as [[val rest']|] eqn:Hv; [|done].
  apply ReadI2PString_sound in Hv as [-> Hval].
  destruct rest' as [|term rest']; [done|].
  destruct (Byte.eqb term semicolon) eqn:Hterm; [|done].
  apply Byte.byte_dec_bl in Hterm as ->.
  destruct (ReadMappingValues fuel rest' _) as [e|more] eqn:Hmore; [done|].
  intros [= <-].
  apply IH in Hmore as (tail & -> & Htail & Hwf & Hnd & Hnew).
  2:{ subst region. rewrite !length_app in Hfuel. cbn [length] in Hfuel.
      rewrite !length_app in Hfuel. cbn [length] in Hfuel. lia. }
  exists tail. split_and!; try done.
  - rewrite Hreg. cbn [flat_map]. unfold record_bytes at 2. cbn [fst snd].
    by rewrite <- !app_assoc.
  - constructor; done.
  - cbn [fmap list_fmap]. apply NoDup_cons. split; [|done].
    intros Hin. apply list_elem_of_fmap in Hin as (r & Hr & Hin).
    apply (Hnew r Hin). rewrite <- Hr. apply list_elem_of_here.
  - intros r Hr. apply elem_of_cons in Hr as [->|Hr]; [done|].
    intros Hin. apply (Hnew r Hr). by apply list_elem_of_further.
Qed.

(** Well-formed records with different keys, followed by fewer than six bytes,
    are parsed back into the records when the last record and the bytes
    after it make six bytes at least; otherwise the last record is among the
    bytes that are not read. *)
Lemma ReadMappingValues_complete (recs : list (I2PString * I2PString))
    (tail : list byte) (fuel : nat) (seen : list string) :
  Forall wf_record recs ->
  NoDup (record_key <$> recs) ->
  (∀ r, r ∈ recs -> record_key r ∉ seen) ->
  len tail < 6 ->
  (∀ r, last recs = Some r -> 6 <= len (record_bytes r) + len tail) ->
  (length (flat_map record_bytes recs ++ tail) <= fuel)%nat ->
  ReadMappingValues fuel (flat_map record_bytes recs ++ tail) seen = inr recs.
Proof.
  intros Hwf. revert fuel seen.
  induction Hwf as [|[key val] recs Hrec Hwf IH]; intros fuel seen Hnd Hnew Htail Hlast Hfuel.
  { cbn [flat_map app]. destruct fuel; [done|]. cbn [ReadMappingValues].
    by destruct (Z.ltb_spec (len tail) 6); [|lia]. }
  pose proof (record_bytes_len _ Hrec) as H4. destruct Hrec as [Hkey Hval].
  cbn [fst snd] in *.
  assert (6 <= len (record_bytes (key, val) ++ flat_map record_bytes recs ++ tail)) as H6.
  { rewrite !len_app. pose proof (len_nonneg tail).
    destruct recs as [|r recs].
    - specialize (Hlast _ eq_refl). cbn [flat_map]. rewrite len_nil. lia.
    - apply Forall_cons in Hwf as [Hr _]. apply record_bytes_len in Hr.
      cbn [flat_map]. rewrite len_app. pose proof (len_nonneg (flat_map record_bytes recs)).
      lia. }
  cbn [flat_map] in *. rewrite <- app_assoc in *.
  destruct fuel as [|fuel]; [unfold len in H6; lia|].
  cbn [ReadMappingValues].
  destruct (Z.ltb_spec (len (record_bytes (key, val) ++ flat_map record_bytes recs ++ tail)) 6);
    [lia|].
  unfold record_bytes at 1. cbn [fst snd]. rewrite <- !app_assoc.
  rewrite ReadI2PString_complete by done. cbv zeta.
  cbn [fmap list_fmap] in Hnd. apply NoDup_cons in Hnd as [Hfresh Hnd].
  case_bool_decide as Hseen.
  { exfalso. apply (Hnew (key, val)); [apply list_elem_of_here|done]. }
  cbn [app]. change (Byte.eqb equals_sign equals_sign) with true. cbv iota.
  rewrite ReadI2PString_complete by done.
  cbn [app]. change (Byte.eqb semicolon semicolon) with true. cbv iota.
  rewrite IH; [reflexivity|done| |done| |].
  - intros r Hr Hin. apply elem_of_cons in Hin as [Heq|Hin].
    + apply Hfresh. change (record_key (key, val)) with (I2PString_Data key).1.
      rewrite <- Heq. by apply (list_elem_of_fmap_2 record_key).
    + apply (Hnew r); [by apply list_elem_of_further|done].
  - intros r Hr. apply Hlast. destruct recs; [done|]. exact Hr.
  - unfold record_bytes at 1 in Hfuel. cbn [fst snd] in Hfuel.
    rewrite ?length_app in Hfuel. cbn [length] in Hfuel.
    rewrite ?length_app in Hfuel. rewrite length_app. lia.
Qed.

Lemma heapM_bind_Done {A B} (m : heapM A) (k : A → heapM B) (σ σ' : store) (a : A) :
  m σ = Done (a, σ') -> (m ≫= k) σ = k a σ'.
Proof. intros H. unfold mbind, heapM_bind. rewrite H. reflexivity. Qed.

Lemma heapM_bind_Panic {A B} (m : heapM A) (k : A → heapM B) (σ : store) (f : fault) :
  m σ = Panic f -> (m ≫= k) σ = Panic f.
Proof. intros H. unfold mbind, heapM_bind. rewrite H. reflexivity. Qed.

Lemma map_make_fresh (σ : store) : map_make σ = Done (Some (length σ), σ ++ [∅]).
Proof. reflexivity. Qed.

Lemma map_read_at (σ : store) (l : nat) (m : gmap string string) :
  σ !! l = Some m -> map_read (Some l) σ = Done (m, σ).
Proof. intros H. unfold map_read. rewrite H. reflexivity. Qed.

Lemma map_read_deref (r : mapref) (σ : store) (m : gmap string string) :
  deref r σ = Some m -> map_read r σ = Done (m, σ).
Proof. destruct r as [l|]; [apply map_read_at|]. by intros [= <-]. Qed.

Lemma map_assign_at (σ : store) (l : nat) (m : gmap string string) (k v : string) :
  σ !! l = Some m ->
  map_assign (Some l) k v σ = Done (tt, <[l := <[k := v]> m]> σ).
Proof. intros H. unfold map_assign. rewrite H. reflexivity. Qed.

Lemma store_pair_well_formed (l : nat) (r : I2PString * I2PString) (σ : store)
    (m : gmap string string) :
  wf_record r -> σ !! l = Some m ->
  store_pair (Some l) r σ
  = Done (tt, <[l := <[record_key r := record_value r]> m]> σ).
Proof.
  intros [Hk Hv] Hl. unfold store_pair, record_key, record_value.
  destruct r as [[|kn kc] [|vn vc]]; try done. cbn [fst snd] in *.
  unfold I2PString_Data. cbn [well_formed] in Hk, Hv.
  apply Is_true_true in Hk, Hv. rewrite Hk, Hv. cbn [fst].
  by apply map_assign_at.
Qed.

(** The loop of [OptionsFromBytes] assigns every record, in order. *)
Lemma for_each_store_pair (recs : list (I2PString * I2PString)) (l : nat)
    (σ : store) (m : gmap string string) :
  Forall wf_record recs -> σ !! l = Some m ->
  for_each recs (store_pair (Some l)) σ
  = Done (tt, <[l := assign_all m (List.map (λ r, (record_key r, record_value r)) recs)]> σ).
Proof.
  intros Hwf. revert σ m. induction Hwf as [|r recs Hr Hwf IH]; intros σ m Hl.
  - simpl. by rewrite list_insert_id.
  - cbn [for_each]. erewrite heapM_bind_Done by (by apply store_pair_well_formed).
    erewrite IH.
    + rewrite list_insert_insert_eq. reflexivity.
    + apply list_lookup_insert_eq. by eapply lookup_lt_Some.
Qed.

(** A loop that copies entries into a map assigns them all, in order. *)
Lemma for_each_copy (kvs : list (string * string)) (l : nat) (σ : store)
    (m : gmap string string) :
  σ !! l = Some m ->
  for_each kvs (λ kv, map_assign (Some l) kv.1 kv.2) σ
  = Done (tt, <[l := assign_all m kvs]> σ).
Proof.
  revert σ m. induction kvs as [|kv kvs IH]; intros σ m Hl.
  - simpl. by rewrite list_insert_id.
  - cbn [for_each]. erewrite heapM_bind_Done by (by apply map_assign_at).
    erewrite IH.
    + rewrite list_insert_insert_eq. reflexivity.
    + apply list_lookup_insert_eq. by eapply lookup_lt_Some.
Qed.

Lemma insert_fresh_cell (σ : store) (m0 m : gmap string string) :
  <[length σ := m]> (σ ++ [m0]) = σ ++ [m].
Proof.
  rewrite insert_app_r_alt by lia. by rewrite Nat.sub_diag.
Qed.

Lemma lookup_fresh_cell (σ : store) (m : gmap string string) :
  (σ ++ [m]) !! length σ = Some m.
Proof. by rewrite lookup_app_r, Nat.sub_diag by lia. Qed.

Lemma assign_all_union (kvs : list (string * string)) (m : gmap string string) :
  assign_all m kvs = list_to_map (reverse kvs) ∪ m.
Proof.
  revert m. induction kvs as [|[k v] kvs IH]; intros m; simpl.
  - change (m = ∅ ∪ m). by rewrite map_empty_union.
  - unfold assign_all in *. cbn [foldl fst snd]. rewrite IH.
    rewrite reverse_cons, list_to_map_app. cbn [list_to_map foldr fmap curry uncurry fst snd].
    rewrite <- (assoc_L (∪)). f_equal.
    by rewrite insert_empty, <- insert_union_singleton_l.
Qed.

(** Copying the entries of a map, in whatever order the loop visits them,
    builds an equal map. *)
Lemma assign_all_entries (m : gmap string string) (kvs : list (string * string)) :
  kvs ≡ₚ map_to_list m -> assign_all ∅ kvs = m.
Proof.
  intros Hperm. rewrite assign_all_union, map_union_empty.
  rewrite <- (list_to_map_to_list m).
  apply list_to_map_proper.
  - rewrite fmap_reverse, reverse_Permutation, Hperm. apply NoDup_fst_map_to_list.
  - by rewrite reverse_Permutation.
Qed.

Lemma assign_all_map_to_list (m : gmap string string) :
  assign_all ∅ (map_to_list m) = m.
Proof. by apply assign_all_entries. Qed.

Lemma size_field_value (b0 b1 : byte) :
  Z.lor (Z.shiftl (byte_to_Z b0) 8) (byte_to_Z b1) = be16_value b0 b1.
Proof.
  pose proof (byte_to_Z_range b0). pose proof (byte_to_Z_range b1).
  rewrite Z.lor_comm, (lor_shiftl 8) by lia. reflexivity.
Qed.

Lemma be16_value_range (b0 b1 : byte) : 0 <= be16_value b0 b1 < 2 ^ 16.
Proof.
  pose proof (byte_to_Z_range b0). pose proof (byte_to_Z_range b1).
  unfold be16_value. lia.
Qed.

Lemma be16_bytes_of_value (b0 b1 : byte) : be16_bytes (be16_value b0 b1) = [b0; b1].
Proof.
  pose proof (byte_to_Z_range b0) as H0. pose proof (byte_to_Z_range b1) as H1.
  unfold be16_bytes, be16_value. rewrite Z.shiftr_div_pow2 by lia.
  replace ((byte_to_Z b0 * 2 ^ 8 + byte_to_Z b1) / 2 ^ 8) with (byte_to_Z b0)
    by (change (2 ^ 8) with 256; Z.div_mod_to_equations; lia).
  rewrite byte_of_to_Z. f_equal. f_equal.
  rewrite <- (byte_of_to_Z b1) at 2. unfold byte_of_Z. 
  replace ((byte_to_Z b0 * 2 ^ 8 + byte_to_Z b1) mod 256) with (byte_to_Z b1 mod 256);
    [reflexivity|].
  change (2 ^ 8) with 256. Z.div_mod_to_equations; lia.
Qed.

(** What [data.ReadMapping] makes of the bytes after a two-byte size. *)
Lemma ReadMapping_cases (b0 b1 : byte) (rest : list byte) :
  let size := be16_value b0 b1 in
  let body := take (Z.to_nat size) rest in
  let remainder := drop (Z.to_nat size) rest in
  ReadMapping (b0 :: b1 :: rest) =
    if len rest <? 1 then (mkMapping 0 [], [], [ZeroLength])
    else if len rest <? size then (mkMapping 0 [], [], [LengthExceedsData])
    else match ReadMappingValues (length body) body [] with
         | inl e => (mkMapping 0 [], remainder, [e])
         | inr values =>
             if 0 <? len remainder
             then (mkMapping size values, remainder, [DataBeyondLength])
             else (mkMapping size values, remainder, [])
         end.
Proof.
  intros size body remainder. unfold ReadMapping. rewrite size_field_value. reflexivity.
Qed.

(** [OptionsFromBytes], case by case. *)
Lemma OptionsFromBytes_cases (raw : list byte) (σ : store) :
  let size := wire_size raw in
  OptionsFromBytes raw σ =
    if len raw <? 2 then Done ((None, 0, Some (TooShortForSize (len raw))), σ)
    else if size =? 0 then
      Done ((Some (mkOptions None (Some (length σ))), 2, None), σ ++ [∅])
    else if len raw <? 3 then Done ((None, 0, Some (ParseFailed ZeroLength)), σ)
    else if len raw - 2 <? size then
      Done ((None, 0, Some (ParseFailed LengthExceedsData)), σ)
    else match ReadMappingValues (length (region raw)) (region raw) [] with
         | inl e => Done ((None, 0, Some (ParseFailed e)), σ)
         | inr recs =>
             if size <? len raw - 2 then
               Done ((None, 0, Some (ParseFailed DataBeyondLength)), σ)
             else
               Done ((Some (mkOptions (Some (mkMapping size recs)) (Some (length σ))),
                      2 + size, None),
                     σ ++ [last_write_wins recs])
         end.
Proof.
  intros size. unfold OptionsFromBytes.
  destruct (Z.ltb_spec (len raw) 2) as [|Hlen]; [reflexivity|].
  destruct raw as [|b0 [|b1 rest]];
    try (exfalso; revert Hlen; rewrite ?len_cons, ?len_nil; lia).
  unfold region, wire_size in *. change (byte_at (b0 :: b1 :: rest) 0) with b0 in *.
  change (byte_at (b0 :: b1 :: rest) 1) with b1 in *.
  change (drop 2 (b0 :: b1 :: rest)) with rest.
  cbn [index lookup list_lookup]. unfold mbind at 1 2, heapM_bind, lift. cbv beta iota.
  rewrite size_field_value. fold size.
  destruct (Z.eqb_spec size 0) as [|Hsize]; [reflexivity|].
  rewrite ReadMapping_cases. fold size.
  pose proof (be16_value_range b0 b1) as Hrange. fold size in Hrange.
  pose proof (len_nonneg rest) as Hrest0.
  replace (len (b0 :: b1 :: rest) - 2) with (len rest) by (rewrite !len_cons; lia).
  replace (len (b0 :: b1 :: rest) <? 3) with (len rest <? 1)
    by (rewrite !len_cons; destruct (Z.ltb_spec (len rest) 1),
          (Z.ltb_spec (1 + (1 + len rest)) 3); lia).
  destruct (Z.ltb_spec (len rest) 1); [reflexivity|].
  destruct (Z.ltb_spec (len rest) size) as [|Hrest]; [reflexivity|].
  destruct (ReadMappingValues _ _ []) as [e|recs] eqn:Hparse; [reflexivity|].
  assert (len (drop (Z.to_nat size) rest) = len rest - size) as Hrem.
  { unfold len in *. rewrite length_drop. lia. }
  rewrite Hrem.
  destruct (Z.ltb_spec 0 (len rest - size)), (Z.ltb_spec size (len rest));
    try lia; [reflexivity|].
  apply ReadMappingValues_sound in Hparse as (tail & _ & _ & Hwf & _); [|done].
  cbv iota beta.
  rewrite (heapM_bind_Done _ _ _ _ _ (map_make_fresh σ)).
  unfold Values. cbn [vals].
  erewrite heapM_bind_Done;
    [|apply for_each_store_pair; [exact Hwf|apply lookup_fresh_cell]].
  rewrite insert_fresh_cell. unfold mret, heapM_ret. do 4 f_equal.
  rewrite Hrem, !len_cons. lia.
Qed.

Lemma assign_all_snoc (m : gmap string string) (kvs : list (string * string))
    (kv : string * string) :
  assign_all m (kvs ++ [kv]) = <[kv.1 := kv.2]> (assign_all m kvs).
Proof. unfold assign_all. by rewrite foldl_app. Qed.

(** Every key that is assigned is in the map. *)
Lemma assign_all_lookup (m : gmap string string) (kvs : list (string * string))
    (k : string) :
  k ∈ kvs.*1 -> is_Some (assign_all m kvs !! k).
Proof.
  induction kvs as [|kv kvs IH] using rev_ind; [by intros ?%elem_of_nil|].
  rewrite fmap_app, elem_of_app, assign_all_snoc. intros Hk.
  destruct (decide (kv.1 = k)) as [<-|Hne].
  - rewrite lookup_insert_eq. eauto.
  - rewrite lookup_insert_ne by done. apply IH.
    destruct Hk as [Hk|Hk]; [done|]. by apply list_elem_of_singleton in Hk.
Qed.

Lemma assign_all_not_in (m : gmap string string) (kvs : list (string * string))
    (k : string) :
  k ∉ kvs.*1 -> assign_all m kvs !! k = m !! k.
Proof.
  induction kvs as [|kv kvs IH] using rev_ind; [done|].
  rewrite fmap_app, not_elem_of_app, assign_all_snoc. intros [Hk Hkv].
  rewrite lookup_insert_ne; [by apply IH|].
  intros Heq. apply Hkv. cbn. rewrite Heq. apply list_elem_of_here.
Qed.

(** The last assignment to a key decides its value. *)
Lemma assign_all_last (m : gmap string string) (pre post : list (string * string))
    (k v : string) :
  k ∉ post.*1 -> assign_all m (pre ++ (k, v) :: post) !! k = Some v.
Proof.
  intros Hpost. unfold assign_all. rewrite foldl_app. cbn [foldl fst snd].
  fold (assign_all (<[k := v]> (foldl (λ acc kv, <[kv.1 := kv.2]> acc) m pre)) post).
  rewrite assign_all_not_in by done. apply lookup_insert_eq.
Qed.

(** Records with different keys: each key has the value of its record. *)
Lemma last_write_wins_NoDup (recs : list (I2PString * I2PString))
    (r : I2PString * I2PString) :
  NoDup (record_key <$> recs) -> r ∈ recs ->
  last_write_wins recs !! record_key r = Some (record_value r).
Proof.
  intros Hnd Hr. apply list_elem_of_split in Hr as (pre & post & ->).
  rewrite fmap_app, fmap_cons in Hnd.
  apply NoDup_app in Hnd as (_ & _ & Hnd). apply NoDup_cons in Hnd as [Hfresh _].
  unfold last_write_wins. rewrite map_app. cbn [List.map].
  apply assign_all_last. intros Hin. apply Hfresh.
  apply list_elem_of_fmap in Hin as ([k v] & Hk & Hin).
  apply list_elem_of_fmap in Hin as (r' & [= -> ->] & Hr').
  cbn [fst] in Hk. rewrite Hk. by apply (list_elem_of_fmap_2 record_key).
Qed.

Lemma last_write_wins_absent (recs : list (I2PString * I2PString)) (k : string) :
  (∀ r, r ∈ recs -> record_key r ≠ k) -> last_write_wins recs !! k = None.
Proof.
  intros Hk. unfold last_write_wins. rewrite assign_all_not_in; [apply lookup_empty|].
  intros Hin. apply list_elem_of_fmap in Hin as ([k' v'] & Heq & Hin).
  apply list_elem_of_fmap in Hin as (r' & [= -> ->] & Hr').
  by apply (Hk r' Hr').
Qed.

Lemma region_length (raw : list byte) :
  0 <= wire_size raw -> 2 + wire_size raw <= len raw ->
  len (region raw) = wire_size raw.
Proof.
  intros H0 Hlen. unfold region, len in *. rewrite length_take, length_drop. lia.
Qed.

Lemma wire_size_range (raw : list byte) : 0 <= wire_size raw < 2 ^ 16.
Proof. apply be16_value_range. Qed.

(** What a successful [OptionsFromBytes] has read and made. *)
Lemma OptionsFromBytes_success (raw : list byte) (σ σ' : store) (o : Options) (n : Z)
    (e : option OptionsError) :
  OptionsFromBytes raw σ = Done ((Some o, n, e), σ') ->
  ∃ recs tail,
    Forall wf_record recs ∧ NoDup (record_key <$> recs) ∧
    region raw = flat_map record_bytes recs ++ tail ∧ len tail < 6 ∧
    e = None ∧ n = 2 + wire_size raw ∧ n <= len raw ∧
    (wire_size raw ≠ 0 -> n = len raw) ∧
    σ' = σ ++ [last_write_wins recs] ∧ values o = Some (length σ) ∧
    mapping o = (if wire_size raw =? 0 then None
                 else Some (mkMapping (wire_size raw) recs)).
Proof.
  rewrite OptionsFromBytes_cases. pose proof (wire_size_range raw) as Hs.
  destruct (Z.ltb_spec (len raw) 2); [done|].
  destruct (Z.eqb_spec (wire_size raw) 0) as [Hz|Hnz].
  { intros [= <- <- <- <-]. exists [], [].
    split_and!; try done; try lia; try (cbn; by constructor).
    unfold region. by rewrite Hz. }
  destruct (Z.ltb_spec (len raw) 3); [done|].
  destruct (Z.ltb_spec (len raw - 2) (wire_size raw)); [done|].
  destruct (ReadMappingValues _ _ []) as [?|recs] eqn:Hparse; [done|].
  destruct (Z.ltb_spec (wire_size raw) (len raw - 2)); [done|].
  intros [= <- <- <- <-].
  apply ReadMappingValues_sound in Hparse as (tail & Hreg & Htail & Hwf & Hnd & _);
    [|done].
  exists recs, tail. split_and!; try done; lia.
Qed.



(** C6. When [OptionsFromBytes] succeeds it consumes two bytes more than the
    size field says, which the input has, however many records there are.
    The two zero bytes decode to an empty mapping and two bytes consumed,
    whatever follows them. *)
Theorem options_decode_consumed :
  (∀ raw σ o n σ',
     OptionsFromBytes raw σ = Done ((o, n, None), σ') ->
     is_Some o ∧ n = 2 + wire_size raw ∧ n <= len raw) ∧
  (∀ σ trailing,
     OptionsFromBytes ([Byte.x00; Byte.x00] ++ trailing) σ
     = Done ((Some (mkOptions None (Some (length σ))), 2, None), σ ++ [∅]) ∧
     run (IsEmpty (Some (mkOptions None (Some (length σ))))) (σ ++ [∅]) = Done true).
Proof.
  split.
  - intros raw σ o n σ' Hdec. destruct o as [o|].
    + destruct (OptionsFromBytes_success _ _ _ _ _ _ Hdec)
        as (_ & _ & _ & _ & _ & _ & _ & Hn & Hlen & _).
      split; [eauto|done].
    + exfalso. revert Hdec. rewrite OptionsFromBytes_cases.
      repeat case_match; done.
  - intros σ trailing. split.
    + rewrite OptionsFromBytes_cases.
      assert (wire_size ([Byte.x00; Byte.x00] ++ trailing) = 0) as -> by reflexivity.
      pose proof (len_nonneg trailing).
      destruct (Z.ltb_spec (len ([Byte.x00; Byte.x00] ++ trailing)) 2) as [Hlt|];
        [|reflexivity].
      cbn [app] in Hlt. rewrite !len_cons in Hlt. lia.
    + unfold run, IsEmpty, map_len. cbn [values].
      erewrite heapM_bind_Done;
        [|erewrite heapM_bind_Done; [reflexivity|apply map_read_at, lookup_fresh_cell]].
      reflexivity.
Qed.

Lemma options_decode_consumed_witness :
  is_Some (Some (mkOptions (Some (mkMapping 10
             [([Byte.x03; Byte.x66; Byte.x6f; Byte.x6f],
               [Byte.x03; Byte.x62; Byte.x61; Byte.x72])])) (Some 0%nat))) ∧
  12 = 2 + wire_size foo_bar_wire ∧ 12 <= len foo_bar_wire.
Proof.
  apply (proj1 options_decode_consumed foo_bar_wire [] _ 12
           [{["foo"%string := "bar"%string]}]).
  vm_compute. reflexivity.
Defined.

#[local] Instance key_le_total : Total key_le.
Proof.
  intros p q. unfold key_le.
  destruct (String.leb_total p.1 q.1) as [H|H]; rewrite H; [left|right]; exact I.
Qed.

Lemma leb_ne_ltb (a b : string) :
  String.leb a b = true -> a ≠ b -> String.ltb a b = true.
Proof.
  unfold String.leb, String.ltb. intros Hle Hne.
  destruct (String.compare a b) eqn:Hc; try done.
  by apply String.compare_eq_iff in Hc.
Qed.

Lemma string_compare_lt_trans (a b c : string) :
  String.compare a b = Lt -> String.compare b c = Lt -> String.compare a c = Lt.
Proof.
  revert b c. induction a as [|x a IH]; intros [|y b] [|z c]; simpl; try done.
  unfold Ascii.compare.
  destruct (N.compare_spec (N_of_ascii x) (N_of_ascii y)) as [Hxy|Hxy|Hxy];
    destruct (N.compare_spec (N_of_ascii y) (N_of_ascii z)) as [Hyz|Hyz|Hyz];
    try done; intros Hab Hbc.
  - rewrite Hxy, Hyz, N.compare_refl. by apply (IH b c).
  - rewrite Hxy. by apply N.compare_lt_iff in Hyz as ->.
  - rewrite <- Hyz. by apply N.compare_lt_iff in Hxy as ->.
  - assert (N_of_ascii x < N_of_ascii z)%N as Hxz by lia.
    by apply N.compare_lt_iff in Hxz as ->.
Qed.

#[local] Instance key_lt_trans : Transitive key_lt.
Proof.
  intros p q r. unfold key_lt, String.ltb.
  destruct (String.compare (record_key p) (record_key q)) eqn:Hpq; try done.
  destruct (String.compare (record_key q) (record_key r)) eqn:Hqr; try done.
  by rewrite (string_compare_lt_trans _ _ _ Hpq Hqr).
Qed.

(** Sorted keys without repetition ascend strictly. *)
Lemma Sorted_key_le_strict (kvs : list (string * string)) :
  Sorted key_le kvs -> NoDup kvs.*1 ->
  Sorted (λ p q, Is_true (String.ltb p.1 q.1)) kvs.
Proof.
  induction 1 as [|p kvs Hs IH Hhd]; [constructor|].
  rewrite fmap_cons, NoDup_cons. intros [Hnotin Hnd].
  constructor; [by apply IH|].
  destruct Hhd as [|q kvs' Hpq]; constructor.
  apply Is_true_true, leb_ne_ltb; [by apply Is_true_true|].
  intros Heq. apply Hnotin. rewrite fmap_cons, Heq. apply list_elem_of_here.
Qed.

Lemma validate_None (kvs : list (string * string)) :
  validate kvs = None ↔ Forall fits_pair kvs.
Proof.
  induction kvs as [|[k v] kvs IH]; simpl; [split; [constructor|done]|].
  rewrite Forall_cons. unfold fits_pair at 1. cbn [fst snd].
  destruct (Z.ltb_spec 255 (len (list_byte_of_string k))).
  { split; [done|lia]. }
  destruct (Z.ltb_spec 255 (len (list_byte_of_string v))).
  { split; [done|lia]. }
  rewrite IH. tauto.
Qed.

Lemma ToI2PString_well_formed (s : string) :
  len (list_byte_of_string s) <= 255 -> Is_true (well_formed (ToI2PString s)).
Proof.
  intros Hs. unfold ToI2PString, well_formed. apply Is_true_true, Z.eqb_eq.
  pose proof (len_nonneg (list_byte_of_string s)).
  rewrite byte_to_of_Z, Z.mod_small by lia. reflexivity.
Qed.

Lemma ToI2PString_Data (s : string) :
  len (list_byte_of_string s) <= 255 -> I2PString_Data (ToI2PString s) = (s, None).
Proof.
  intros Hs. unfold ToI2PString, I2PString_Data.
  pose proof (len_nonneg (list_byte_of_string s)).
  rewrite byte_to_of_Z, Z.mod_small, Z.eqb_refl by lia.
  by rewrite string_of_list_byte_of_string.
Qed.

Lemma to_record_fits (kv : string * string) :
  fits_pair kv ->
  wf_record (to_record kv) ∧
  record_key (to_record kv) = kv.1 ∧ record_value (to_record kv) = kv.2.
Proof.
  intros [Hk Hv]. unfold wf_record, record_key, record_value, to_record. cbn [fst snd].
  rewrite !ToI2PString_Data by done.
  split_and!; try done; by apply ToI2PString_well_formed.
Qed.

Lemma size_zero_empty (m : gmap string string) : Z.of_nat (base.size m) = 0 -> m = ∅.
Proof. intros H. apply map_size_empty_iff. lia. Qed.

(** [Bytes] of a value that holds no parsed mapping: the entries of its map,
    as records in strictly ascending key order. *)
Lemma Bytes_of_map (o : Options) (σ : store) (m : gmap string string) :
  mapping o = None -> deref (values o) σ = Some m ->
  ∃ out err,
    Bytes (Some o) σ = Done ((out, err), σ) ∧
    (err = None ->
       ∃ recs, emits out recs ∧ StronglySorted key_lt recs ∧ records_of m recs) ∧
    (err ≠ None -> out = []) ∧
    (fits m -> err = None).
Proof.
  intros Hmp Hl. unfold Bytes, map_len. rewrite Hmp.
  erewrite heapM_bind_Done;
    [|erewrite heapM_bind_Done; [reflexivity|by apply map_read_deref]].
  destruct (Z.eqb_spec (Z.of_nat (base.size m)) 0) as [Hz|Hnz].
  { apply size_zero_empty in Hz as ->.
    eexists _, _. split; [reflexivity|]. split_and!; try done.
    intros _. exists []. split_and!.
    - split; [constructor|reflexivity].
    - constructor.
    - unfold records_of. by rewrite map_to_list_empty. }
  erewrite heapM_bind_Done by (by apply map_read_deref).
  unfold GoMapToMapping.
  set (kvs := merge_sort key_le (map_to_list m)).
  assert (kvs ≡ₚ map_to_list m) as Hperm by apply merge_sort_Permutation.
  destruct (validate kvs) as [e|] eqn:Hval.
  { eexists _, _. split; [reflexivity|]. split_and!; try done.
    intros Hfits. exfalso.
    assert (validate kvs = None) as Hnone; [|congruence].
    apply validate_None, Forall_forall. intros [k v] Hin.
    rewrite Hperm in Hin. apply elem_of_map_to_list in Hin. by apply Hfits. }
  eexists _, _. split; [reflexivity|]. split_and!; try done.
  intros _. exists (List.map to_record kvs).
  apply validate_None in Hval.
  assert (List.map (λ r, (record_key r, record_value r)) (List.map to_record kvs) = kvs)
    as Hback.
  { clear -Hval. induction Hval as [|kv kvs Hkv _ IH]; [done|].
    cbn [List.map]. rewrite IH.
    destruct (to_record_fits kv Hkv) as (_ & -> & ->). by destruct kv. }
  split_and!.
  - split; [|reflexivity]. clear -Hval.
    induction Hval as [|kv kvs Hkv _ IH]; constructor; [|done].
    by apply to_record_fits.
  - apply Sorted_StronglySorted; [apply _|].
    assert (Sorted (λ p q, Is_true (String.ltb p.1 q.1)) kvs) as Hsorted.
    { apply Sorted_key_le_strict; [apply Sorted_merge_sort, _|].
      rewrite Hperm. apply NoDup_fst_map_to_list. }
    clear -Hval Hsorted. induction Hsorted as [|p kvs Hs IH Hhd]; [constructor|].
    apply Forall_cons in Hval as [Hp Hval].
    cbn [List.map]. constructor; [by apply IH|].
    destruct Hhd as [|q kvs' Hpq]; constructor.
    apply Forall_cons in Hval as [Hq _]. unfold key_lt.
    destruct (to_record_fits p Hp) as (_ & -> & _).
    by destruct (to_record_fits q Hq) as (_ & -> & _).
  - unfold records_of. by rewrite Hback.
Qed.

Lemma EmptyOptions_fresh (σ : store) :
  EmptyOptions σ = Done (mkOptions None (Some (length σ)), σ ++ [∅]).
Proof. reflexivity. Qed.

(** [NewOptions] copies the entries of its argument into a map of its own. *)
Lemma NewOptions_copy (r : mapref) (σ : store) (m : gmap string string) :
  deref r σ = Some m ->
  NewOptions r σ = Done (mkOptions None (Some (length σ)), σ ++ [m]).
Proof.
  destruct r as [l|]; [|by intros [= <-]].
  cbn [deref]. intros Hl. unfold NewOptions.
  rewrite (heapM_bind_Done _ _ _ _ _ (map_make_fresh σ)).
  assert ((σ ++ [∅]) !! l = Some m) as Hl'.
  { rewrite lookup_app_l; [done|]. by eapply lookup_lt_Some. }
  unfold map_range.
  erewrite heapM_bind_Done;
    [|erewrite heapM_bind_Done; [reflexivity|by apply map_read_at]].
  erewrite heapM_bind_Done by (apply for_each_copy, lookup_fresh_cell).
  by rewrite insert_fresh_cell, assign_all_map_to_list.
Qed.

(** [ToMap] copies the entries of the receiver into a new map. *)
Lemma ToMap_copy (o : option Options) (σ : store) (m : gmap string string) :
  entries o σ = Some m ->
  ToMap o σ = Done (Some (length σ), σ ++ [m]).
Proof.
  destruct o as [[mp [l|]]|]; cbn [entries deref values];
    [|by intros [= <-]..].
  intros Hl. unfold ToMap. cbn [values].
  rewrite (heapM_bind_Done _ _ _ _ _ (map_make_fresh σ)).
  assert ((σ ++ [∅]) !! l = Some m) as Hl'.
  { rewrite lookup_app_l; [done|]. by eapply lookup_lt_Some. }
  unfold map_range.
  erewrite heapM_bind_Done;
    [|erewrite heapM_bind_Done; [reflexivity|by apply map_read_at]].
  erewrite heapM_bind_Done by (apply for_each_copy, lookup_fresh_cell).
  by rewrite insert_fresh_cell, assign_all_map_to_list.
Qed.

(** [Set] drops the parsed mapping and assigns the key in the map of the
    receiver, which it makes first when the receiver has the nil map. *)
Lemma Set_at (o : Options) (σ : store) (m : gmap string string) (k v : string) :
  deref (values o) σ = Some m ->
  ∃ l σ', Set_ (Some o) k v σ = Done (mkOptions None (Some l), σ') ∧
          σ' !! l = Some (<[k := v]> m) ∧
          (∀ l', l' ≠ l -> (l' < length σ)%nat -> σ' !! l' = σ !! l').
Proof.
  destruct o as [mp [l|]]; cbn [deref values].
  - intros Hl. pose proof (lookup_lt_Some _ _ _ Hl) as Hlt.
    exists l, (<[l := <[k := v]> m]> σ). split_and!.
    + unfold Set_. cbn [values].
      unfold mbind at 1, heapM_bind, mret at 1, heapM_ret.
      erewrite heapM_bind_Done by (by apply map_assign_at). reflexivity.
    + by apply list_lookup_insert_eq.
    + intros l' Hne _. by apply list_lookup_insert_ne.
  - intros [= <-]. exists (length σ), (σ ++ [{[k := v]}]). split_and!.
    + unfold Set_. cbn [values].
      rewrite (heapM_bind_Done _ _ _ _ _ (map_make_fresh σ)).
      erewrite heapM_bind_Done by (apply map_assign_at, lookup_fresh_cell).
      by rewrite insert_fresh_cell, insert_empty.
    + apply lookup_fresh_cell.
    + intros l' _ Hlt. by apply lookup_app_l.
Qed.

(** Well-formed records are read off their serialization. *)
Lemma record_bytes_inj (recs recs' : list (I2PString * I2PString)) :
  Forall wf_record recs -> Forall wf_record recs' ->
  flat_map record_bytes recs = flat_map record_bytes recs' -> recs = recs'.
Proof.
  intros Hwf. revert recs'.
  induction Hwf as [|[key val] recs Hrec Hwf IH]; intros recs' Hwf' Heq.
  { destruct Hwf' as [|r' recs' Hr' _]; [done|]. exfalso.
    apply record_bytes_len in Hr'. apply (f_equal len) in Heq.
    cbn [flat_map] in Heq. rewrite len_app, len_nil in Heq.
    pose proof (len_nonneg (flat_map record_bytes recs')). lia. }
  destruct Hwf' as [|[key' val'] recs' Hrec' Hwf'].
  { exfalso. apply record_bytes_len in Hrec. apply (f_equal len) in Heq.
    cbn [flat_map] in Heq. rewrite len_app, len_nil in Heq.
    pose proof (len_nonneg (flat_map record_bytes recs)). lia. }
  destruct Hrec as [Hkey Hval], Hrec' as [Hkey' Hval']. cbn [fst snd] in *.
  cbn [flat_map] in Heq. unfold record_bytes in Heq at 1 3. cbn [fst snd] in Heq.
  rewrite <- !app_assoc in Heq.
  pose proof (ReadI2PString_complete key
                ([equals_sign] ++ val ++ [semicolon] ++ flat_map record_bytes recs) Hkey)
    as Hk.
  rewrite Heq, ReadI2PString_complete in Hk by done.
  injection Hk as <- Hrest.
  pose proof (ReadI2PString_complete val
                (semicolon :: flat_map record_bytes recs) Hval) as Hv.
  rewrite <- Hrest, ReadI2PString_complete in Hv by done.
  injection Hv as <- Hrest'.
  f_equal. by apply IH.
Qed.

(** C1. A value that holds no parsed mapping, which is what
    [EmptyOptions], [NewOptions] and [Set] leave, is encoded as the entries of
    its map in strictly ascending order of the raw bytes of the keys, each
    entry once; with keys and values of at most 255 bytes the encoding does
    not fail. The keys a, b and c, set in the order c, a, b, are written as a,
    b, c. A value that was decoded is not encoded so: the wire [b=2;a=1;] is
    accepted, and [Bytes] of the value gives the same bytes back, with the
    record of b before the record of a; no ascending sequence of records has
    this serialization. *)
Theorem options_bytes_key_order :
  (∀ o σ m,
     mapping o = None -> deref (values o) σ = Some m ->
     ∃ out err,
       Bytes (Some o) σ = Done ((out, err), σ) ∧
       (err = None ->
          ∃ recs, emits out recs ∧ StronglySorted key_lt recs ∧ records_of m recs) ∧
       (fits m -> err = None)) ∧
  (∀ σ, ∃ o σ', EmptyOptions σ = Done (o, σ') ∧
                mapping o = None ∧ deref (values o) σ' = Some ∅) ∧
  (∀ r σ m, deref r σ = Some m ->
     ∃ o σ', NewOptions r σ = Done (o, σ') ∧
             mapping o = None ∧ deref (values o) σ' = Some m) ∧
  (∀ o σ m k v, deref (values o) σ = Some m ->
     ∃ o' σ', Set_ (Some o) k v σ = Done (o', σ') ∧
              mapping o' = None ∧ deref (values o') σ' = Some (<[k := v]> m)) ∧
  run (o ← EmptyOptions; o ← Set_ (Some o) "c" "3"; o ← Set_ (Some o) "a" "1";
       o ← Set_ (Some o) "b" "2"; Bytes (Some o)) []
    = Done (a_b_c_wire, None) ∧
  (∃ o σ', OptionsFromBytes b_a_wire [] = Done ((Some o, 14, None), σ') ∧
           Bytes (Some o) σ' = Done ((b_a_wire, None), σ') ∧
           emits b_a_wire [(ToI2PString "b", ToI2PString "2");
                           (ToI2PString "a", ToI2PString "1")] ∧
           ¬ ∃ recs, emits b_a_wire recs ∧ Sorted key_lt recs).
Proof.
  split_and!.
  - intros o σ m Hmp Hl.
    destruct (Bytes_of_map o σ m Hmp Hl) as (out & err & H1 & H2 & _ & H3).
    eauto.
  - intros σ. eexists _, _. split; [apply EmptyOptions_fresh|].
    split; [done|]. apply lookup_fresh_cell.
  - intros r σ m Hr. eexists _, _. split; [by apply NewOptions_copy|].
    split; [done|]. apply lookup_fresh_cell.
  - intros o σ m k v Hl.
    destruct (Set_at o σ m k v Hl) as (l & σ' & HSet & Hl' & _). eauto.
  - vm_compute. reflexivity.
  - eexists _, _. split; [vm_compute; reflexivity|].
    split; [vm_compute; reflexivity|].
    assert (Forall wf_record [(ToI2PString "b", ToI2PString "2");
                              (ToI2PString "a", ToI2PString "1")]) as Hba
      by repeat constructor.
    split; [split; [exact Hba|vm_compute; reflexivity]|].
    intros (recs & [Hwf Hout] & Hsorted).
    unfold Mapping_Data, ValuesToMapping in Hout. cbn [size vals] in Hout.
    unfold be16_bytes in Hout. cbn [app] in Hout.
    injection Hout as _ _ Hout.
    assert (recs = [(ToI2PString "b", ToI2PString "2");
                    (ToI2PString "a", ToI2PString "1")]) as ->.
    { apply record_bytes_inj; [done|done|]. rewrite <- Hout. reflexivity. }
    apply Sorted_inv in Hsorted as [_ Hhd]. apply HdRel_inv in Hhd.
    vm_compute in Hhd. exact Hhd.
Qed.

Lemma options_bytes_key_order_witness :
  ∃ out err,
    Bytes (Some (mkOptions None (Some 0%nat))) [{["b" := "2"; "a" := "1"]}]
      = Done ((out, err), [{["b" := "2"; "a" := "1"]}]) ∧
    (err = None -> ∃ recs, emits out recs ∧ StronglySorted key_lt recs ∧
                           records_of {["b" := "2"; "a" := "1"]} recs) ∧
    (fits {["b" := "2"; "a" := "1"]} -> err = None).
Proof.
  apply (proj1 options_bytes_key_order (mkOptions None (Some 0%nat))
           [{["b" := "2"; "a" := "1"]}]); reflexivity.
Defined.

(** C5. On a nil receiver [Get], [Has], [IsEmpty], [Len], [Bytes] and [ToMap]
    answer as for an empty mapping; [Set] dereferences the receiver and
    panics. *)
Theorem options_nil_receiver (σ : store) (k v : string) :
  Get None k σ = Done (EmptyString, σ) ∧
  Has None k σ = Done (false, σ) ∧
  IsEmpty None σ = Done (true, σ) ∧
  Len None σ = Done (2, σ) ∧
  Bytes None σ = Done ((empty_mapping_bytes, None), σ) ∧
  ToMap None σ = Done (Some (length σ), σ ++ [∅]) ∧
  Set_ None k v σ = Panic NilDereference.
Proof. unfold Get, Has, IsEmpty, Len, Bytes, ToMap, Set_. split_and!; reflexivity. Qed.

(** [Bytes] reads the store only at the map of its receiver. *)
Lemma Bytes_frame (o : Options) (σ1 σ2 : store) :
  (∀ l, values o = Some l -> σ1 !! l = σ2 !! l) ->
  run (Bytes (Some o)) σ1 = run (Bytes (Some o)) σ2.
Proof.
  intros Hframe. destruct o as [mp [l|]].
  - specialize (Hframe l eq_refl).
    unfold run, Bytes, map_len, map_read, mbind, heapM_bind, mret, heapM_ret.
    cbn [values mapping]. rewrite Hframe.
    destruct (σ2 !! l) as [m|] eqn:Hl; [|done].
    destruct (Z.of_nat (base.size m) =? 0); [done|].
    destruct mp as [mp|]; [done|].
    rewrite Hframe, Hl.
    by destruct (GoMapToMapping m) as [[?|] [?|]].
  - reflexivity.
Qed.

(** What is observed of a value depends on the store only through the map
    the value refers to. *)
Lemma same_view_frame (o : option Options) (σ1 σ2 : store) :
  (∀ o' l, o = Some o' -> values o' = Some l -> σ1 !! l = σ2 !! l) ->
  same_view o σ1 σ2.
Proof.
  destruct o as [o|]; [|by intros _; unfold same_view].
  intros Hframe. specialize (Hframe o).
  assert (∀ l, values o = Some l -> σ1 !! l = σ2 !! l) as Hf by eauto.
  clear Hframe. rename Hf into Hframe.
  pose proof (Bytes_frame o σ1 σ2 Hframe) as HBytes.
  unfold same_view. split_and!; [| | |exact HBytes|].
  - intros k. destruct o as [mp [l|]]; [|done]. specialize (Hframe l eq_refl).
    unfold run, Get, map_index, map_read, mbind, heapM_bind, mret, heapM_ret.
    cbn [values]. rewrite Hframe. destruct (σ2 !! l) as [m|]; [|done].
    by destruct (m !! k).
  - intros k. destruct o as [mp [l|]]; [|done]. specialize (Hframe l eq_refl).
    unfold run, Has, map_index, map_read, mbind, heapM_bind, mret, heapM_ret.
    cbn [values]. rewrite Hframe. destruct (σ2 !! l) as [m|]; [|done].
    by destruct (m !! k).
  - destruct o as [mp [l|]]; [|done]. specialize (Hframe l eq_refl).
    unfold run, IsEmpty, map_len, map_read, mbind, heapM_bind, mret, heapM_ret.
    cbn [values]. rewrite Hframe. by destruct (σ2 !! l) as [m|].
  - unfold run in HBytes. unfold run, Len.
    destruct o as [mp [l|]].
    + specialize (Hframe l eq_refl).
      unfold map_len, map_read, mbind, heapM_bind, mret, heapM_ret.
      cbn [values mapping]. rewrite Hframe.
      destruct (σ2 !! l) as [m|] eqn:Hl; [|done].
      destruct (Z.of_nat (base.size m) =? 0); [done|].
      destruct mp as [mp|]; [done|].
      destruct (Bytes _ σ1) as [[[d1 e1] τ1]|], (Bytes _ σ2) as [[[d2 e2] τ2]|];
        try done; [|by injection HBytes as ->].
      injection HBytes as -> ->. by destruct e2.
    + reflexivity.
Qed.

(** C9. [ToMap] returns a new map holding a copy of the entries of the
    receiver: whatever the caller then does to that map (an assignment, a
    deletion, any change of its contents), what [Get], [Has], [IsEmpty],
    [Bytes] and [Len] answer for the receiver stays as it was. [NewOptions]
    likewise copies the map it is given into a new one, so a later change of
    the caller's map does not show in the new value. *)
Theorem options_maps_are_copies :
  (∀ o σ m,
     entries o σ = Some m ->
     ToMap o σ = Done (Some (length σ), σ ++ [m]) ∧
     (∀ k v, map_assign (Some (length σ)) k v (σ ++ [m])
             = Done (tt, <[length σ := <[k := v]> m]> (σ ++ [m]))) ∧
     (∀ k, map_delete (Some (length σ)) k (σ ++ [m])
           = Done (tt, <[length σ := delete k m]> (σ ++ [m]))) ∧
     ∀ m', same_view o (<[length σ := m']> (σ ++ [m])) σ) ∧
  (∀ r σ m,
     deref r σ = Some m ->
     NewOptions r σ = Done (mkOptions None (Some (length σ)), σ ++ [m]) ∧
     entries (Some (mkOptions None (Some (length σ)))) (σ ++ [m]) = Some m ∧
     ∀ l, r = Some l ->
       (∀ k v, map_assign r k v (σ ++ [m])
               = Done (tt, <[l := <[k := v]> m]> (σ ++ [m]))) ∧
       (∀ k, map_delete r k (σ ++ [m])
             = Done (tt, <[l := delete k m]> (σ ++ [m]))) ∧
       ∀ m', same_view (Some (mkOptions None (Some (length σ))))
                       (<[l := m']> (σ ++ [m])) (σ ++ [m])).
Proof.
  split.
  - intros o σ m Hm. split_and!.
    + by apply ToMap_copy.
    + intros k v. apply map_assign_at, lookup_fresh_cell.
    + intros k. unfold map_delete. by rewrite lookup_fresh_cell.
    + intros m'. apply same_view_frame. intros o' l -> Hvs.
      cbn [entries] in Hm. rewrite Hvs in Hm. cbn [deref] in Hm.
      pose proof (lookup_lt_Some _ _ _ Hm) as Hlt.
      rewrite insert_fresh_cell, lookup_app_l by done. reflexivity.
  - intros r σ m Hr. split_and!.
    + by apply NewOptions_copy.
    + apply lookup_fresh_cell.
    + intros l ->. cbn [deref] in Hr.
      pose proof (lookup_lt_Some _ _ _ Hr) as Hlt.
      assert ((σ ++ [m]) !! l = Some m) as Hl by (by rewrite lookup_app_l).
      split_and!.
      * intros k v. by apply map_assign_at.
      * intros k. unfold map_delete. by rewrite Hl.
      * intros m'. apply same_view_frame. intros o' l' [= <-] [= <-].
        rewrite list_lookup_insert_ne by lia. reflexivity.
Qed.

Lemma options_maps_are_copies_witness :
  ToMap (Some (mkOptions None (Some 0%nat))) [{["a" := "1"]}]
    = Done (Some (length [({["a" := "1"]} : gmap string string)]),
            [{["a" := "1"]}] ++ [{["a" := "1"]}]) ∧
  (∀ k v, map_assign (Some (length [({["a" := "1"]} : gmap string string)])) k v
            ([{["a" := "1"]}] ++ [{["a" := "1"]}])
          = Done (tt, <[length [({["a" := "1"]} : gmap string string)]
                          := <[k := v]> {["a" := "1"]}]>
                        ([{["a" := "1"]}] ++ [{["a" := "1"]}]))) ∧
  (∀ k, map_delete (Some (length [({["a" := "1"]} : gmap string string)])) k
          ([{["a" := "1"]}] ++ [{["a" := "1"]}])
        = Done (tt, <[length [({["a" := "1"]} : gmap string string)]
                        := delete k {["a" := "1"]}]>
                      ([{["a" := "1"]}] ++ [{["a" := "1"]}]))) ∧
  ∀ m', same_view (Some (mkOptions None (Some 0%nat)))
          (<[length [({["a" := "1"]} : gmap string string)] := m']>
             ([{["a" := "1"]}] ++ [{["a" := "1"]}]))
          [{["a" := "1"]}].
Proof.
  apply (proj1 options_maps_are_copies (Some (mkOptions None (Some 0%nat)))
           [{["a" := "1"]}] {["a" := "1"]}); reflexivity.
Defined.

End OptionsMapping.

(** Offline signature: lengths, refusals and expiry *)

Section OfflineSignatureUse.

Import Offline.

Lemma be32_value_range (b0 b1 b2 b3 : byte) : 0 <= be32_value b0 b1 b2 b3 < 2 ^ 32.
Proof.
  pose proof (byte_to_Z_range b0). pose proof (byte_to_Z_range b1).
  pose proof (byte_to_Z_range b2). pose proof (byte_to_Z_range b3).
  unfold be32_value. lia.
Qed.

Lemma byte_of_Z_mod (z : Z) : byte_of_Z (z mod 256) = byte_of_Z z.
Proof. unfold byte_of_Z. by rewrite Z.mod_mod. Qed.

Lemma byte_of_Z_add_mul (b : byte) (q : Z) : byte_of_Z (q * 256 + byte_to_Z b) = b.
Proof.
  rewrite <- byte_of_Z_mod, Z.add_comm, Z.mod_add by lia.
  rewrite byte_of_Z_mod. apply byte_of_to_Z.
Qed.

Lemma be32_bytes_of_value (b0 b1 b2 b3 : byte) :
  be32_bytes (be32_value b0 b1 b2 b3) = [b0; b1; b2; b3].
Proof.
  pose proof (byte_to_Z_range b0) as H0. pose proof (byte_to_Z_range b1) as H1.
  pose proof (byte_to_Z_range b2) as H2. pose proof (byte_to_Z_range b3) as H3.
  unfold be32_bytes, be32_value. rewrite !Z.shiftr_div_pow2 by lia.
  change (2 ^ 24) with 16777216. change (2 ^ 16) with 65536. change (2 ^ 8) with 256.
  set (x := byte_to_Z b0 * 16777216 + byte_to_Z b1 * 65536 + byte_to_Z b2 * 256
            + byte_to_Z b3).
  replace (x / 16777216) with (0 * 256 + byte_to_Z b0)
    by (subst x; Z.div_mod_to_equations; lia).
  replace (x / 65536) with (byte_to_Z b0 * 256 + byte_to_Z b1)
    by (subst x; Z.div_mod_to_equations; lia).
  replace (x / 256) with ((byte_to_Z b0 * 256 + byte_to_Z b1) * 256 + byte_to_Z b2)
    by (subst x; Z.div_mod_to_equations; lia).
  replace x with (((byte_to_Z b0 * 256 + byte_to_Z b1) * 256 + byte_to_Z b2) * 256
                  + byte_to_Z b3) by (subst x; lia).
  by rewrite !byte_of_Z_add_mul.
Qed.

(** What a successful decode tells about its input and its result. *)
Lemma FromBytes_success (data : list byte) (dst : Z) (v : OfflineSignature) (n : Z)
    (e : option OfflineError) :
  OfflineSignatureFromBytes data dst = Done (Some v, n, e) ->
  ∃ b0 b1 b2 b3 b4 b5 rest,
    let pk := publicKeyLengthForSigType (be16_value b4 b5) in
    let sl := signatureLengthForSigType dst in
    data = b0 :: b1 :: b2 :: b3 :: b4 :: b5 :: rest ∧
    pk ≠ 0 ∧ sl ≠ 0 ∧ pk + sl <= len rest ∧ n = 6 + pk + sl ∧ e = None ∧
    v = mkOfflineSignature (mkTime (be32_value b0 b1 b2 b3) 0) (be16_value b4 b5)
          (take (Z.to_nat pk) rest) (take (Z.to_nat sl) (drop (Z.to_nat pk) rest)).
Proof.
  intros Hdec.
  destruct data as [|b0 [|b1 [|b2 [|b3 [|b4 [|b5 rest]]]]]];
    try (by vm_compute in Hdec).
  exists b0, b1, b2, b3, b4, b5, rest. cbv zeta.
  rewrite FromBytes_header in Hdec.
  destruct (Z.eqb_spec (publicKeyLengthForSigType (be16_value b4 b5)) 0); [done|].
  destruct (Z.eqb_spec (signatureLengthForSigType dst) 0); [done|].
  destruct (Z.ltb_spec (len rest)
              (publicKeyLengthForSigType (be16_value b4 b5)
               + signatureLengthForSigType dst)); [done|].
  injection Hdec as <- <- <-. done.
Qed.

(** X1. [Bytes] never panics, and [Len] is the length of what it returns. *)
Theorem offline_len_is_encoded_length (v : OfflineSignature) :
  ∃ bs, Bytes v = Done bs ∧ len bs = Len v.
Proof.
  eexists. split; [apply Bytes_layout|].
  unfold Len, be32_bytes, be16_bytes. cbn [app]. rewrite !len_cons, !len_app. lia.
Qed.

(** X2. What [OfflineSignatureFromBytes] returns has a key and a signature
    of the lengths of the two signature types, [Len] of it is the number of
    bytes consumed, and [Bytes] of it is the consumed part of the input. *)
Theorem offline_decode_then_encode (data : list byte) (dst : Z)
    (v : OfflineSignature) (n : Z) (e : option OfflineError) :
  OfflineSignatureFromBytes data dst = Done (Some v, n, e) ->
  e = None ∧
  len (TransientPublicKey v) = publicKeyLengthForSigType (TransientSigType v) ∧
  len (Signature v) = signatureLengthForSigType dst ∧
  Len v = n ∧ n <= len data ∧
  Bytes v = Done (take (Z.to_nat n) data).
Proof.
  intros Hdec.
  destruct (FromBytes_success _ _ _ _ _ Hdec)
    as (b0 & b1 & b2 & b3 & b4 & b5 & rest & -> & Hpk & Hsl & Hlen & -> & -> & ->).
  pose proof (publicKeyLength_range (be16_value b4 b5)) as Hpkr.
  pose proof (signatureLength_range dst) as Hslr.
  set (pk := publicKeyLengthForSigType (be16_value b4 b5)) in *.
  set (sl := signatureLengthForSigType dst) in *.
  cbn [TransientPublicKey TransientSigType Signature].
  assert (len (take (Z.to_nat pk) rest) = pk) as Hk
    by (unfold len in *; rewrite length_take; lia).
  assert (len (take (Z.to_nat sl) (drop (Z.to_nat pk) rest)) = sl) as Hs
    by (unfold len in *; rewrite length_take, length_drop; lia).
  split_and!; try done.
  - unfold Len. cbn [TransientPublicKey Signature]. lia.
  - rewrite !len_cons. lia.
  - rewrite Bytes_layout. cbn [Expires TransientSigType TransientPublicKey Signature Time_Unix unix_sec].
    unfold uint32. rewrite Z.mod_small by apply be32_value_range.
    rewrite be32_bytes_of_value, be16_bytes_of_value.
    replace (Z.to_nat (6 + pk + sl)) with (6 + (Z.to_nat pk + Z.to_nat sl))%nat by lia.
    cbn [app take Nat.add]. do 6 f_equal.
    rewrite <- (take_drop (Z.to_nat pk) rest) at 3.
    rewrite take_app_add'; [done|]. unfold len in Hk. lia.
Qed.

Lemma offline_decode_then_encode_witness :
  (None : option OfflineError) = None ∧
  len (TransientPublicKey ed25519_block)
    = publicKeyLengthForSigType (TransientSigType ed25519_block) ∧
  len (Signature ed25519_block) = signatureLengthForSigType 7 ∧
  Len ed25519_block = 102 ∧ 102 <= len (ed25519_wire ++ [Byte.xff]) ∧
  Bytes ed25519_block = Done (take (Z.to_nat 102) (ed25519_wire ++ [Byte.xff])).
Proof.
  apply (offline_decode_then_encode (ed25519_wire ++ [Byte.xff]) 7 ed25519_block 102 None).
  vm_compute. reflexivity.
Defined.

(** X3. A block cut short is refused: when a block is accepted with [n] bytes
    consumed, each of its prefixes of fewer than [n] bytes gives a too-short
    error, for the header below six bytes and for the data from six bytes on,
    naming [n] and the length of the prefix. *)
Theorem offline_truncated_block_refused (data : list byte) (dst : Z)
    (v : OfflineSignature) (n : Z) (k : nat) :
  OfflineSignatureFromBytes data dst = Done (Some v, n, None) ->
  Z.of_nat k < n ->
  OfflineSignatureFromBytes (take k data) dst
  = Done (None, 0,
          Some (if Z.of_nat k <? 6 then HeaderTooShort (Z.of_nat k)
                else DataTooShort n (Z.of_nat k))).
Proof.
  intros Hdec Hk.
  destruct (FromBytes_success _ _ _ _ _ Hdec)
    as (b0 & b1 & b2 & b3 & b4 & b5 & rest & -> & Hpk & Hsl & Hlen & -> & _ & _).
  pose proof (len_nonneg rest) as Hrest.
  set (data := b0 :: b1 :: b2 :: b3 :: b4 :: b5 :: rest) in *.
  assert (len (take k data) = Z.of_nat k) as Hlk.
  { unfold len, data. rewrite length_take. cbn [length]. unfold len in *. lia. }
  destruct (Z.ltb_spec (Z.of_nat k) 6) as [Hshort|Hlong].
  - unfold OfflineSignatureFromBytes. rewrite Hlk.
    destruct (Z.ltb_spec (Z.of_nat k) 6); [done|lia].
  - destruct k as [|[|[|[|[|[|k]]]]]]; try lia.
    unfold data. cbn [take]. rewrite FromBytes_header.
    destruct (Z.eqb_spec (publicKeyLengthForSigType (be16_value b4 b5)) 0); [done|].
    destruct (Z.eqb_spec (signatureLengthForSigType dst) 0); [done|].
    assert (len (take k rest) = Z.of_nat k) as Hlr.
    { unfold len in *. rewrite length_take. lia. }
    rewrite Hlr.
    destruct (Z.ltb_spec (Z.of_nat k)
                (publicKeyLengthForSigType (be16_value b4 b5)
                 + signatureLengthForSigType dst)); [|lia].
    do 4 f_equal. lia.
Qed.

Lemma offline_truncated_block_refused_witness :
  OfflineSignatureFromBytes (take 50 ed25519_wire) 7
  = Done (None, 0,
          Some (if Z.of_nat 50 <? 6 then HeaderTooShort (Z.of_nat 50)
                else DataTooShort 102 (Z.of_nat 50))).
Proof.
  apply (offline_truncated_block_refused ed25519_wire 7 ed25519_block 102 50).
  - vm_compute. reflexivity.
  - lia.
Defined.

(** X4. The decoder looks at no byte after the block: with any bytes in
    place of those that follow the consumed ones, the result is the same. *)
Theorem offline_trailing_bytes_ignored (data : list byte) (dst : Z)
    (v : OfflineSignature) (n : Z) (trailing : list byte) :
  OfflineSignatureFromBytes data dst = Done (Some v, n, None) ->
  OfflineSignatureFromBytes (take (Z.to_nat n) data ++ trailing) dst
  = Done (Some v, n, None).
Proof.
  intros Hdec.
  destruct (FromBytes_success _ _ _ _ _ Hdec)
    as (b0 & b1 & b2 & b3 & b4 & b5 & rest & -> & Hpk & Hsl & Hlen & -> & _ & ->).
  pose proof (publicKeyLength_range (be16_value b4 b5)) as Hpkr.
  pose proof (signatureLength_range dst) as Hslr.
  set (pk := publicKeyLengthForSigType (be16_value b4 b5)) in *.
  set (sl := signatureLengthForSigType dst) in *.
  replace (Z.to_nat (6 + pk + sl)) with (6 + (Z.to_nat pk + Z.to_nat sl))%nat by lia.
  cbn [take Nat.add app]. rewrite FromBytes_header. fold pk sl.
  destruct (Z.eqb_spec pk 0); [done|]. destruct (Z.eqb_spec sl 0); [done|].
  pose proof (len_nonneg trailing).
  assert (length (take (Z.to_nat pk + Z.to_nat sl) rest) = (Z.to_nat pk + Z.to_nat sl)%nat)
    as Hlt by (unfold len in *; rewrite length_take; lia).
  rewrite len_app. unfold len at 1. rewrite Hlt.
  destruct (Z.ltb_spec (Z.of_nat (Z.to_nat pk + Z.to_nat sl) + len trailing) (pk + sl));
    [lia|].
  rewrite take_app_le, take_take by lia.
  rewrite drop_app_le, take_app_le by (rewrite ?length_drop; lia).
  rewrite <- take_drop_commute, take_take.
  replace (Z.to_nat pk `min` (Z.to_nat pk + Z.to_nat sl))%nat with (Z.to_nat pk) by lia.
  replace (Z.to_nat pk + Z.to_nat sl - Z.to_nat pk)%nat with (Z.to_nat sl) by lia.
  rewrite Nat.min_id. reflexivity.
Qed.

Lemma offline_trailing_bytes_ignored_witness :
  OfflineSignatureFromBytes (take (Z.to_nat 102) ed25519_wire ++ [Byte.x01; Byte.x02]) 7
  = Done (Some ed25519_block, 102, None).
Proof.
  apply (offline_trailing_bytes_ignored ed25519_wire 7 ed25519_block 102).
  vm_compute. reflexivity.
Defined.

Lemma signatureLength_cases (t : Z) :
  signatureLengthForSigType t ≠ 0 -> t ∈ [0; 1; 2; 3; 7; 11].
Proof.
  unfold signatureLengthForSigType. intros H.
  repeat case_match; try done; set_solver.
Qed.

Lemma sigtype_known_lengths (t : Z) :
  t ∈ [0; 1; 2; 3; 7; 11] ->
  publicKeyLengthForSigType t ≠ 0 ∧ signatureLengthForSigType t ≠ 0.
Proof.
  intros Ht. repeat (apply elem_of_cons in Ht as [->|Ht]; [done|]).
  by apply elem_of_nil in Ht.
Qed.

(** X5. The two tables know the same signature types: a type has a public
    key length exactly when it has a signature length, and these are the
    types 0, 1, 2, 3, 7 and 11. So an accepted block takes at least 78 and
    at most 270 bytes. *)
Theorem sigtype_tables_agree :
  (∀ t, publicKeyLengthForSigType t ≠ 0 ↔ signatureLengthForSigType t ≠ 0) ∧
  (∀ t, publicKeyLengthForSigType t ≠ 0 ↔ t ∈ [0; 1; 2; 3; 7; 11]) ∧
  (∀ data dst v n e,
     OfflineSignatureFromBytes data dst = Done (Some v, n, e) -> 78 <= n <= 270).
Proof.
  assert (∀ t, publicKeyLengthForSigType t ≠ 0 ↔ t ∈ [0; 1; 2; 3; 7; 11]) as Tpk.
  { intros t. split; [apply publicKeyLength_cases|]. apply sigtype_known_lengths. }
  assert (∀ t, signatureLengthForSigType t ≠ 0 ↔ t ∈ [0; 1; 2; 3; 7; 11]) as Tsl.
  { intros t. split; [apply signatureLength_cases|]. apply sigtype_known_lengths. }
  split_and!; [|done|].
  - intros t. by rewrite Tpk, Tsl.
  - intros data dst v n e Hdec.
    destruct (FromBytes_success _ _ _ _ _ Hdec)
      as (b0 & b1 & b2 & b3 & b4 & b5 & rest & _ & Hp & Hs & _ & -> & _ & _).
    apply Tpk in Hp. apply Tsl in Hs.
    repeat (apply elem_of_cons in Hp as [->|Hp];
            [repeat (apply elem_of_cons in Hs as [->|Hs]; [simpl; lia|]);
             by apply elem_of_nil in Hs|]).
    by apply elem_of_nil in Hp.
Qed.

Lemma sigtype_tables_agree_witness :
  OfflineSignatureFromBytes ed25519_wire 7 = Done (Some ed25519_block, 102, None) ∧
  78 <= 102 <= 270.
Proof.
  split; [vm_compute; reflexivity|].
  apply (proj2 (proj2 sigtype_tables_agree) ed25519_wire 7 ed25519_block 102 None).
  vm_compute. reflexivity.
Defined.

Lemma Time_After_iff (t u : Time) :
  Time_After t u = true ↔
  unix_sec u < unix_sec t ∨ (unix_sec t = unix_sec u ∧ nanos u < nanos t).
Proof.
  unfold Time_After.
  rewrite orb_true_iff, andb_true_iff, !Z.ltb_lt, Z.eqb_eq. reflexivity.
Qed.

(** X6. Expiry is strict and lasting: a signature is not expired at the
    instant it expires, it is expired at every later second, and once
    expired it stays so at every instant that is not earlier. *)
Theorem offline_expiry_strict_and_lasting (o : OfflineSignature) :
  IsExpired (Expires o) o = false ∧
  (∀ now, unix_sec (Expires o) < unix_sec now -> IsExpired now o = true) ∧
  (∀ now later,
     IsExpired now o = true -> Time_After now later = false ->
     IsExpired later o = true).
Proof.
  unfold IsExpired. split_and!.
  - apply not_true_iff_false. rewrite Time_After_iff. lia.
  - intros now Hlt. apply Time_After_iff. lia.
  - intros now later Hexp%Time_After_iff Hord%not_true_iff_false.
    rewrite Time_After_iff in Hord. apply Time_After_iff. lia.
Qed.

Lemma offline_expiry_strict_and_lasting_witness :
  IsExpired (mkTime 1234567891 0) ed25519_block = true.
Proof.
  apply (proj1 (proj2 (offline_expiry_strict_and_lasting ed25519_block))). simpl. lia.
Defined.

End OfflineSignatureUse.

(** Address: printing, comparing and reading back *)

Section AddressPrinter.

Import Addr.

Lemma digit_char_code (d : Z) :
  0 <= d <= 9 -> char_code (ascii_of_N (Z.to_N (48 + d))) = 48 + d.
Proof.
  intros Hd. unfold char_code. rewrite N_ascii_embedding by lia. lia.
Qed.

Lemma decimal_value_app (s t : string) (acc : Z) :
  decimal_value (s +:+ t) acc = decimal_value t (decimal_value s acc).
Proof. revert acc. induction s as [|c s IH]; intros acc; simpl; [done|]. apply IH. Qed.

Lemma all_digits_app (s t : string) :
  all_digits (s +:+ t) = all_digits s && all_digits t.
Proof. induction s as [|c s IH]; simpl; [done|]. by rewrite IH, andb_assoc. Qed.

Lemma has_colon_app (s t : string) :
  has_colon (s +:+ t) = has_colon s || has_colon t.
Proof. induction s as [|c s IH]; simpl; [done|]. by rewrite IH, orb_assoc. Qed.

Lemma append_assoc (s t r : string) : (s +:+ t) +:+ r = s +:+ (t +:+ r).
Proof.
  induction s as [|c s IH]; [done|].
  change (String c ((s +:+ t) +:+ r) = String c (s +:+ (t +:+ r))). by rewrite IH.
Qed.

Lemma append_empty_r (s : string) : s +:+ EmptyString = s.
Proof.
  induction s as [|c s IH]; [done|].
  change (String c (s +:+ EmptyString) = String c s). by rewrite IH.
Qed.

Lemma strlen_app (s t : string) : strlen (s +:+ t) = strlen s + strlen t.
Proof.
  unfold strlen. induction s as [|c s IH].
  - change (EmptyString +:+ t) with t. simpl. lia.
  - simpl. lia.
Qed.

Lemma all_digits_no_colon (s : string) : all_digits s = true -> has_colon s = false.
Proof.
  induction s as [|c s IH]; simpl; [done|].
  intros [Hc Hs]%andb_true_iff. rewrite (IH Hs), orb_false_r.
  apply Ascii.eqb_neq. intros ->. by vm_compute in Hc.
Qed.

(** The digits fmt writes for [u]: at most [k] of them when [u < 10 ^ k],
    denoting [u]. *)
Lemma fmt_digits_spec (fuel : nat) : ∀ (k : nat) (u : Z) (suffix : string),
  (1 <= k <= fuel)%nat -> 0 <= u < 10 ^ Z.of_nat k ->
  ∃ pre, fmt_digits fuel u suffix = pre +:+ suffix ∧
         pre ≠ EmptyString ∧ all_digits pre = true ∧
         (String.length pre <= k)%nat ∧
         ∀ acc, decimal_value pre acc = acc * 10 ^ Z.of_nat (String.length pre) + u.
Proof.
  induction fuel as [|fuel IH]; intros k u suffix Hk Hu; [lia|].
  cbn [fmt_digits]. destruct (Z.ltb_spec u 10) as [Hlt|Hge].
  - exists (String (ascii_of_N (Z.to_N (48 + u))) EmptyString). split_and!; try done.
    + simpl. unfold is_digit. rewrite digit_char_code by lia.
      destruct (Z.leb_spec 48 (48 + u)), (Z.leb_spec (48 + u) 57); done || lia.
    + simpl. lia.
    + intros acc. simpl. rewrite digit_char_code by lia. lia.
  - cbv zeta. assert (2 <= k)%nat as Hk2.
    { destruct k as [|[|k]]; [lia| |lia]. simpl in Hu. lia. }
    assert (0 <= u / 10 < 10 ^ Z.of_nat (k - 1)) as Hnext.
    { split; [apply Z.div_pos; lia|].
      apply Z.div_lt_upper_bound; [lia|].
      replace (Z.of_nat k) with (1 + Z.of_nat (k - 1)) in Hu by lia.
      rewrite Z.pow_add_r in Hu by lia. lia. }
    destruct (IH (k - 1)%nat (u / 10)
                (String (ascii_of_N (Z.to_N (48 + (u - u / 10 * 10)))) suffix)
                ltac:(lia) Hnext) as (pre & Heq & Hne & Hd & Hl & Hv).
    rewrite Heq. clear Heq.
    assert (0 <= u - u / 10 * 10 <= 9) as Hr by (Z.div_mod_to_equations; lia).
    exists (pre +:+ String (ascii_of_N (Z.to_N (48 + (u - u / 10 * 10)))) EmptyString).
    split_and!.
    + by rewrite append_assoc.
    + destruct pre; done.
    + rewrite all_digits_app, Hd. simpl. unfold is_digit.
      rewrite digit_char_code by lia.
      destruct (Z.leb_spec 48 (48 + (u - u / 10 * 10))),
               (Z.leb_spec (48 + (u - u / 10 * 10)) 57); done || lia.
    + pose proof (strlen_app pre
                    (String (ascii_of_N (Z.to_N (48 + (u - u / 10 * 10)))) EmptyString))
        as Hla. unfold strlen in Hla. simpl String.length in Hla. lia.
    + intros acc. rewrite decimal_value_app, Hv. simpl.
      rewrite digit_char_code by lia.
      pose proof (strlen_app pre
                    (String (ascii_of_N (Z.to_N (48 + (u - u / 10 * 10)))) EmptyString))
        as Hla. unfold strlen in Hla. simpl String.length in Hla.
      replace (Z.of_nat (String.length
                 (pre +:+ String (ascii_of_N (Z.to_N (48 + (u - u / 10 * 10)))) "")))
        with (Z.of_nat (String.length pre) + 1) by lia.
      rewrite Z.pow_add_r by lia. lia.
Qed.

(** A port, written with [%d], reads back as the same port. *)
Lemma fmt_uint_port (p : Z) :
  0 <= p <= 65535 ->
  port_value (fmt_uint p) = Some p ∧ has_colon (fmt_uint p) = false ∧
  1 <= strlen (fmt_uint p) <= 5.
Proof.
  intros Hp. unfold fmt_uint.
  destruct (fmt_digits_spec 20 5 p EmptyString ltac:(lia) ltac:(simpl; lia))
    as (pre & -> & Hne & Hd & Hl & Hv).
  rewrite append_empty_r.
  split_and!.
  - unfold port_value. destruct pre as [|c pre]; [done|].
    rewrite Hd, Hv. replace (0 * _ + p) with p by lia.
    destruct (Z.leb_spec p 65535); [done|lia].
  - by apply all_digits_no_colon.
  - unfold strlen. destruct pre; [done|]. simpl. lia.
  - unfold strlen. lia.
Qed.

Lemma String_shape (a : I2PAddr) :
  String_ (Some a) = Done (with_port (shown (Destination a)) (fmt_uint (Port a))).
Proof.
  unfold String_, shown, with_port.
  destruct (String.eqb_spec (Destination a) EmptyString) as [->|Hne]; reflexivity.
Qed.

Lemma substring_length (n : nat) (s : string) :
  String.length (String.substring 0 n s) = Nat.min n (String.length s).
Proof.
  revert s. induction n as [|n IH]; intros [|c s]; simpl; try done.
  by rewrite IH.
Qed.

Lemma shown_length (dest : string) : strlen (shown dest) <= 19.
Proof.
  unfold shown. destruct (Z.ltb_spec 16 (strlen dest)).
  - rewrite strlen_app. unfold strlen in *. rewrite substring_length.
    simpl String.length. lia.
  - lia.
Qed.

(** X7. [Equal] is equality of addresses: two non-nil addresses are equal
    when destination and port agree, two nil addresses are equal, and a nil
    address equals no other. *)
Theorem address_equal_iff (a b : option I2PAddr) : Equal a b = true ↔ a = b.
Proof.
  destruct a as [[d1 p1]|], b as [[d2 p2]|]; simpl; try done.
  rewrite andb_true_iff, String.eqb_eq, Z.eqb_eq. split.
  - by intros [-> ->].
  - by intros [= -> ->].
Qed.

(** X8. What [String] writes for an address with a port of 16 bits is read
    back by [ParseI2PAddr] as the destination that is shown and the same
    port; so an address with a destination of at most 16 bytes comes back
    unchanged, whatever its destination (empty, or with colons). *)
Theorem address_string_parses_back (a : I2PAddr) :
  0 <= Port a <= 65535 ->
  ∃ s, String_ (Some a) = Done s ∧
       ParseI2PAddr s = (Some (mkI2PAddr (shown (Destination a)) (Port a)), None) ∧
       (strlen (Destination a) <= 16 -> ParseI2PAddr s = (Some a, None)).
Proof.
  intros Hp. eexists. split; [apply String_shape|].
  destruct (fmt_uint_port (Port a) Hp) as (Hv & Hc & _).
  assert (ParseI2PAddr (with_port (shown (Destination a)) (fmt_uint (Port a)))
          = (Some (mkI2PAddr (shown (Destination a)) (Port a)), None)) as Hparse.
  { rewrite ParseI2PAddr_with_port by done.
    pose proof (ParseUint_port (fmt_uint (Port a))) as Hu. rewrite Hv in Hu.
    destruct Hu as [-> _]. unfold uint16.
    rewrite Z.mod_small by (simpl; lia). reflexivity. }
  split; [exact Hparse|].
  intros Hshort. rewrite Hparse. unfold shown.
  destruct (Z.ltb_spec 16 (strlen (Destination a))); [lia|]. by destruct a.
Qed.

Lemma address_string_parses_back_witness :
  ∃ s, String_ (Some (mkI2PAddr "a:b" 12345)) = Done s ∧
       ParseI2PAddr s = (Some (mkI2PAddr (shown "a:b") 12345), None) ∧
       (strlen "a:b" <= 16 -> ParseI2PAddr s = (Some (mkI2PAddr "a:b" 12345), None)).
Proof.
  apply (address_string_parses_back (mkI2PAddr "a:b" 12345)). simpl. lia.
Defined.

(** X9. [String] panics on a nil address. Otherwise, for a port of 16 bits,
    it writes at most 25 bytes: at most 19 for the destination (the first 16
    bytes and three dots when it is longer), the colon, and one to five
    digits. *)
Theorem address_string_bounded :
  String_ None = Panic NilDereference ∧
  ∀ a, 0 <= Port a <= 65535 ->
       ∃ s, String_ (Some a) = Done s ∧ 2 <= strlen s <= 25 ∧ has_colon s = true ∧
            (16 < strlen (Destination a) -> 21 <= strlen s).
Proof.
  split; [done|]. intros a Hp. eexists. split; [apply String_shape|].
  destruct (fmt_uint_port (Port a) Hp) as (_ & _ & Hl).
  pose proof (shown_length (Destination a)) as Hs.
  unfold with_port. rewrite strlen_app, has_colon_app.
  assert (strlen (String colon (fmt_uint (Port a))) = 1 + strlen (fmt_uint (Port a)))
    as -> by (unfold strlen; simpl String.length; lia).
  assert (0 <= strlen (shown (Destination a))) by (unfold strlen; lia).
  split_and!; try lia.
  - simpl. by rewrite orb_true_r.
  - intros Hlong. unfold shown in *. destruct (Z.ltb_spec 16 (strlen (Destination a))); [|lia].
    rewrite strlen_app. unfold strlen in *. rewrite substring_length.
    simpl String.length. lia.
Qed.

Lemma address_string_bounded_witness :
  ∃ s, String_ (Some (mkI2PAddr "0123456789abcdefXYZ" 8080)) = Done s ∧
       2 <= strlen s <= 25 ∧ has_colon s = true ∧
       (16 < strlen "0123456789abcdefXYZ" -> 21 <= strlen s).
Proof.
  apply (proj2 address_string_bounded (mkI2PAddr "0123456789abcdefXYZ" 8080)).
  simpl. lia.
Defined.

End AddressPrinter.

(** Options: accessors, cache and encoding *)

Section OptionsAccessors.

Import Data Opts.

(** What the helpers answer, in terms of the entries of the receiver. *)
Lemma Get_entries (o : option Options) (σ : store) (m : gmap string string) (k : string) :
  entries o σ = Some m -> Get o k σ = Done (default EmptyString (m !! k), σ).
Proof.
  destruct o as [[mp [l|]]|]; cbn [entries deref values]; [|by intros [= <-]..].
  intros Hl. unfold Get, map_index. cbn [values].
  erewrite heapM_bind_Done;
    [|erewrite heapM_bind_Done; [reflexivity|by apply map_read_at]].
  by destruct (m !! k).
Qed.

Lemma Has_entries (o : option Options) (σ : store) (m : gmap string string) (k : string) :
  entries o σ = Some m -> Has o k σ = Done (bool_decide (is_Some (m !! k)), σ).
Proof.
  destruct o as [[mp [l|]]|]; cbn [entries deref values]; [|by intros [= <-]..].
  intros Hl. unfold Has, map_index. cbn [values].
  erewrite heapM_bind_Done;
    [|erewrite heapM_bind_Done; [reflexivity|by apply map_read_at]].
  by destruct (m !! k).
Qed.

Lemma IsEmpty_entries (o : option Options) (σ : store) (m : gmap string string) :
  entries o σ = Some m -> IsEmpty o σ = Done (bool_decide (m = ∅), σ).
Proof.
  destruct o as [[mp r]|]; cbn [entries values]; [|by intros [= <-]].
  intros Hl. unfold IsEmpty, map_len. cbn [values].
  erewrite heapM_bind_Done;
    [|erewrite heapM_bind_Done; [reflexivity|by apply map_read_deref]].
  unfold mret, heapM_ret. do 2 f_equal.
  destruct (Z.eqb_spec (Z.of_nat (base.size m)) 0) as [Hz|Hnz].
  - by rewrite bool_decide_eq_true_2 by (by apply size_zero_empty).
  - rewrite bool_decide_eq_false_2; [done|]. intros ->. by rewrite map_size_empty in Hnz.
Qed.

(** X10. [Set] then [Get]: after [Set(k, v)] the receiver answers [v] for
    [k], has [k] and is not empty, and for every other key [Get] and [Has]
    answer as before. *)
Theorem options_set_then_get (o : Options) (σ : store) (m : gmap string string)
    (k v : string) :
  deref (values o) σ = Some m ->
  ∃ o' σ',
    Set_ (Some o) k v σ = Done (o', σ') ∧
    run (Get (Some o') k) σ' = Done v ∧
    run (Has (Some o') k) σ' = Done true ∧
    run (IsEmpty (Some o')) σ' = Done false ∧
    ∀ k', k' ≠ k ->
      run (Get (Some o') k') σ' = run (Get (Some o) k') σ ∧
      run (Has (Some o') k') σ' = run (Has (Some o) k') σ.
Proof.
  intros Hm. destruct (Set_at o σ m k v Hm) as (l & σ' & HSet & Hl & _).
  exists (mkOptions None (Some l)), σ'. split; [done|].
  assert (entries (Some (mkOptions None (Some l))) σ' = Some (<[k := v]> m)) as He by done.
  assert (entries (Some o) σ = Some m) as He0 by done.
  unfold run. split_and!.
  - by rewrite (Get_entries _ _ _ _ He), lookup_insert_eq.
  - rewrite (Has_entries _ _ _ _ He), lookup_insert_eq.
    by rewrite bool_decide_eq_true_2.
  - rewrite (IsEmpty_entries _ _ _ He).
    rewrite bool_decide_eq_false_2; [done|]. apply insert_non_empty.
  - intros k' Hne.
    rewrite (Get_entries _ _ _ _ He), (Get_entries _ _ _ _ He0).
    rewrite (Has_entries _ _ _ _ He), (Has_entries _ _ _ _ He0).
    by rewrite lookup_insert_ne.
Qed.

Lemma options_set_then_get_witness :
  ∃ o' σ',
    Set_ (Some (mkOptions None None)) "foo" "bar" [] = Done (o', σ') ∧
    run (Get (Some o') "foo") σ' = Done "bar"%string ∧
    run (Has (Some o') "foo") σ' = Done true ∧
    run (IsEmpty (Some o')) σ' = Done false ∧
    ∀ k', k' ≠ "foo"%string ->
      run (Get (Some o') k') σ' = run (Get (Some (mkOptions None None)) k') [] ∧
      run (Has (Some o') k') σ' = run (Has (Some (mkOptions None None)) k') [].
Proof.
  apply (options_set_then_get (mkOptions None None) [] ∅ "foo" "bar"). reflexivity.
Defined.

(** X11. [Set] drops the parsed mapping: after a decode and a [Set], [Bytes]
    no longer gives the bytes that were decoded but the entries of the
    changed map, the new one among them, in ascending key order. *)
Theorem options_set_invalidates_cache (raw : list byte) (σ σ' : store) (o : Options)
    (n : Z) (k v : string) :
  OptionsFromBytes raw σ = Done ((Some o, n, None), σ') ->
  ∃ m o' σ'' out err,
    entries (Some o) σ' = Some m ∧
    Set_ (Some o) k v σ' = Done (o', σ'') ∧
    mapping o' = None ∧ entries (Some o') σ'' = Some (<[k := v]> m) ∧
    Bytes (Some o') σ'' = Done ((out, err), σ'') ∧
    (err = None ->
       ∃ recs, emits out recs ∧ StronglySorted key_lt recs ∧
               records_of (<[k := v]> m) recs ∧
               ∃ r, r ∈ recs ∧ record_key r = k ∧ record_value r = v).
Proof.
  intros Hdec.
  destruct (OptionsFromBytes_success _ _ _ _ _ _ Hdec)
    as (recs0 & tail0 & _ & _ & _ & _ & _ & _ & _ & _ & -> & Hvs & _).
  assert (deref (values o) (σ ++ [last_write_wins recs0]) = Some (last_write_wins recs0))
    as Hm by (rewrite Hvs; apply lookup_fresh_cell).
  destruct (Set_at o _ _ k v Hm) as (l & σ'' & HSet & Hl & _).
  destruct (Bytes_of_map (mkOptions None (Some l)) σ'' _ eq_refl Hl)
    as (out & err & HBytes & Hsorted & _ & _).
  exists (last_write_wins recs0), (mkOptions None (Some l)), σ'', out, err.
  split_and!; try done.
  intros Herr. destruct (Hsorted Herr) as (recs & Hemit & Hs & Hrecs).
  exists recs. split_and!; try done.
  assert ((k, v) ∈ map_to_list (<[k := v]> (last_write_wins recs0))) as Hin
    by (apply elem_of_map_to_list, lookup_insert_eq).
  unfold records_of in Hrecs. rewrite <- Hrecs in Hin.
  apply list_elem_of_fmap in Hin as (r & [= Hk Hv] & Hr). eauto.
Qed.

Lemma options_set_invalidates_cache_witness :
  ∃ m o' σ'' out err,
    entries (Some (mkOptions (Some (mkMapping 12
       [([Byte.x01; Byte.x62], [Byte.x01; Byte.x32]);
        ([Byte.x01; Byte.x61], [Byte.x01; Byte.x31])])) (Some 0%nat)))
      [{["a" := "1"; "b" := "2"]}] = Some m ∧
    Set_ (Some (mkOptions (Some (mkMapping 12
       [([Byte.x01; Byte.x62], [Byte.x01; Byte.x32]);
        ([Byte.x01; Byte.x61], [Byte.x01; Byte.x31])])) (Some 0%nat))) "c" "3"
      [{["a" := "1"; "b" := "2"]}] = Done (o', σ'') ∧
    mapping o' = None ∧ entries (Some o') σ'' = Some (<["c" := "3"]> m) ∧
    Bytes (Some o') σ'' = Done ((out, err), σ'') ∧
    (err = None ->
       ∃ recs, emits out recs ∧ StronglySorted key_lt recs ∧
               records_of (<["c" := "3"]> m) recs ∧
               ∃ r, r ∈ recs ∧ record_key r = "c"%string ∧ record_value r = "3"%string).
Proof.
  apply (options_set_invalidates_cache b_a_wire [] _ _ 14 "c" "3").
  vm_compute. reflexivity.
Defined.

Lemma GoMapToMapping_result (m : gmap string string) :
  (∃ e, GoMapToMapping m = (None, Some e)) ∨ (∃ mp, GoMapToMapping m = (Some mp, None)).
Proof. unfold GoMapToMapping. destruct (validate _); eauto. Qed.

(** X12. [Len] agrees with [Bytes]: it is the length of the bytes [Bytes]
    returns, and 2 when [Bytes] returns an error; neither panics, and neither
    changes a map. *)
Theorem options_len_agrees_with_bytes (o : option Options) (σ : store)
    (m : gmap string string) :
  entries o σ = Some m ->
  ∃ data err,
    Bytes o σ = Done ((data, err), σ) ∧
    Len o σ = Done ((match err with Some _ => 2 | None => len data end), σ).
Proof.
  destruct o as [[mp r]|]; cbn [entries values]; [|intros _; by eexists _, _].
  intros Hm.
  assert (Bytes (Some (mkOptions mp r)) σ =
          if Z.of_nat (base.size m) =? 0 then Done ((empty_mapping_bytes, None), σ)
          else match mp with
               | Some mp' => Done ((Mapping_Data mp', None), σ)
               | None =>
                   match GoMapToMapping m with
                   | (_, Some err) => Done (([], Some (CreateFailed err)), σ)
                   | (Some mp', None) => Done ((Mapping_Data mp', None), σ)
                   | (None, None) => Panic NilDereference
                   end
               end) as HBytes.
  { unfold Bytes, map_len. cbn [values mapping].
    erewrite heapM_bind_Done;
      [|erewrite heapM_bind_Done; [reflexivity|by apply map_read_deref]].
    destruct (Z.of_nat (base.size m) =? 0); [done|].
    destruct mp; [done|].
    erewrite heapM_bind_Done by (by apply map_read_deref).
    by destruct (GoMapToMapping m) as [[?|] [?|]]. }
  unfold Len. cbn [values mapping]. unfold map_len.
  erewrite heapM_bind_Done;
    [|erewrite heapM_bind_Done; [reflexivity|by apply map_read_deref]].
  rewrite HBytes.
  destruct (Z.of_nat (base.size m) =? 0); [by eexists _, _|].
  destruct mp as [mp|]; [by eexists _, _|].
  unfold mbind, heapM_bind. rewrite HBytes.
  destruct (GoMapToMapping_result m) as [[e ->]|[mp ->]]; by eexists _, _.
Qed.

Lemma options_len_agrees_with_bytes_witness :
  ∃ data err,
    Bytes (Some (mkOptions None (Some 0%nat))) [{["a" := "1"]}]
      = Done ((data, err), [{["a" := "1"]}]) ∧
    Len (Some (mkOptions None (Some 0%nat))) [{["a" := "1"]}]
      = Done ((match err with Some _ => 2 | None => len data end), [{["a" := "1"]}]).
Proof.
  apply (options_len_agrees_with_bytes (Some (mkOptions None (Some 0%nat)))
           [{["a" := "1"]}] {["a" := "1"]}). reflexivity.
Defined.

(** X13. A map given to [NewOptions] and taken back with [ToMap] has the
    same entries, in a map that is neither the one given nor the one the
    value holds; and the value answers [Get] and [Has] as the given map
    does. *)
Theorem options_new_then_tomap (r : mapref) (σ : store) (m : gmap string string) :
  deref r σ = Some m ->
  ∃ o σ' r' σ'',
    NewOptions r σ = Done (o, σ') ∧
    ToMap (Some o) σ' = Done (r', σ'') ∧
    deref r' σ'' = Some m ∧ r' ≠ r ∧ r' ≠ values o ∧ values o ≠ r ∧
    deref r σ'' = Some m ∧ entries (Some o) σ'' = Some m ∧
    ∀ k, run (Get (Some o) k) σ'' = Done (default EmptyString (m !! k)) ∧
         run (Has (Some o) k) σ'' = Done (bool_decide (is_Some (m !! k))).
Proof.
  intros Hr. pose proof (NewOptions_copy r σ m Hr) as HNew.
  set (o := mkOptions None (Some (length σ))) in *.
  assert (entries (Some o) (σ ++ [m]) = Some m) as He by apply lookup_fresh_cell.
  pose proof (ToMap_copy (Some o) (σ ++ [m]) m He) as HTo.
  exists o, (σ ++ [m]), (Some (length (σ ++ [m]))), ((σ ++ [m]) ++ [m]).
  assert (entries (Some o) ((σ ++ [m]) ++ [m]) = Some m) as He'.
  { cbn. rewrite lookup_app_l by (rewrite length_app; simpl; lia).
    apply lookup_fresh_cell. }
  split_and!; try done.
  - apply lookup_fresh_cell.
  - destruct r as [l|]; [|done]. cbn in Hr. apply lookup_lt_Some in Hr.
    intros [= Heq]. rewrite length_app in Heq. simpl in Heq. lia.
  - subst o. cbn. intros [= Heq]. rewrite length_app in Heq. simpl in Heq. lia.
  - destruct r as [l|]; [|done]. cbn in Hr. apply lookup_lt_Some in Hr.
    subst o. cbn. intros [= Heq]. lia.
  - destruct r as [l|]; [|done]. cbn in *. pose proof (lookup_lt_Some _ _ _ Hr).
    rewrite !lookup_app_l by (rewrite ?length_app; simpl; lia). done.
  - intros k. unfold run.
    by rewrite (Get_entries _ _ _ _ He'), (Has_entries _ _ _ _ He').
Qed.

Lemma options_new_then_tomap_witness :
  ∃ o σ' r' σ'',
    NewOptions (Some 0%nat) [{["a" := "1"]}] = Done (o, σ') ∧
    ToMap (Some o) σ' = Done (r', σ'') ∧
    deref r' σ'' = Some {["a" := "1"]} ∧ r' ≠ Some 0%nat ∧ r' ≠ values o ∧
    values o ≠ Some 0%nat ∧
    deref (Some 0%nat) σ'' = Some {["a" := "1"]} ∧
    entries (Some o) σ'' = Some {["a" := "1"]} ∧
    ∀ k, run (Get (Some o) k) σ''
           = Done (default EmptyString (({["a" := "1"]} : gmap string string) !! k)) ∧
         run (Has (Some o) k) σ''
           = Done (bool_decide (is_Some (({["a" := "1"]} : gmap string string) !! k))).
Proof.
  apply (options_new_then_tomap (Some 0%nat) [{["a" := "1"]}] {["a" := "1"]}).
  reflexivity.
Defined.

Lemma records_of_empty (m : gmap string string) : records_of m [] -> m = ∅.
Proof.
  unfold records_of. simpl. intros Hperm. symmetry in Hperm.
  apply Permutation_nil_r in Hperm. by apply map_to_list_empty_iff.
Qed.

Lemma ltb_leb (a b : string) : String.ltb a b = true -> String.leb a b = true.
Proof. unfold String.ltb, String.leb. by destruct (String.compare a b). Qed.

Lemma string_compare_refl (a : string) : String.compare a a = Eq.
Proof.
  pose proof (String.compare_antisym a a) as H.
  by destruct (String.compare a a).
Qed.

Lemma ltb_irrefl (a : string) : String.ltb a a = false.
Proof. unfold String.ltb. by rewrite string_compare_refl. Qed.

Lemma leb_refl (a : string) : String.leb a a = true.
Proof. unfold String.leb. by rewrite string_compare_refl. Qed.

Lemma leb_antisym (a b : string) :
  String.leb a b = true -> String.leb b a = true -> a = b.
Proof.
  unfold String.leb. rewrite (String.compare_antisym b a).
  destruct (String.compare a b) eqn:Hc; try done.
  intros _ _. by apply String.compare_eq_iff.
Qed.

Lemma StronglySorted_key_lt_NoDup (recs : list (I2PString * I2PString)) :
  StronglySorted key_lt recs -> NoDup (record_key <$> recs).
Proof.
  induction 1 as [|r recs Hs IH Hall]; [constructor|].
  cbn [fmap list_fmap]. apply NoDup_cons. split; [|done].
  intros Hin. apply list_elem_of_fmap in Hin as (r' & Heq & Hr').
  rewrite Forall_forall in Hall. specialize (Hall r' Hr').
  unfold key_lt in Hall. rewrite <- Heq, ltb_irrefl in Hall. done.
Qed.

(** The bytes of a well-formed record: four more than its key and value. *)
Lemma record_bytes_len_eq (r : I2PString * I2PString) :
  wf_record r ->
  len (record_bytes r)
  = 4 + len (list_byte_of_string (record_key r))
      + len (list_byte_of_string (record_value r)).
Proof.
  destruct r as [[|n1 c1] [|n2 c2]]; intros [Hk Hv]; try done.
  cbn [fst snd well_formed] in Hk, Hv.
  apply Is_true_true in Hk, Hv.
  unfold record_key, record_value, record_bytes, I2PString_Data. cbn [fst snd].
  rewrite Hk, Hv. cbn [fst].
  rewrite !list_byte_of_string_of_list_byte, !len_app, !len_cons, len_nil. lia.
Qed.

(** The last of the records of a map, in ascending key order, is the entry
    with the greatest key, and the records before it are the other
    entries. *)
Lemma last_record_last_entry (m : gmap string string)
    (recs : list (I2PString * I2PString)) (r : I2PString * I2PString) :
  StronglySorted key_lt (recs ++ [r]) -> records_of m (recs ++ [r]) ->
  last_entry m (record_key r) (record_value r) ∧
  records_of (delete (record_key r) m) recs.
Proof.
  unfold records_of. intros Hs Hperm.
  assert (m !! record_key r = Some (record_value r)) as Hr.
  { apply elem_of_map_to_list. rewrite <- Hperm, map_app.
    apply elem_of_app. right. apply list_elem_of_here. }
  split; [split; [done|]|].
  - intros k' [v' Hk']. apply elem_of_map_to_list in Hk'.
    rewrite <- Hperm in Hk'.
    apply list_elem_of_In, in_map_iff in Hk' as (r0 & [= <- _] & Hr0).
    apply list_elem_of_In, elem_of_app in Hr0 as [Hr0|Hr0].
    + apply Is_true_true, ltb_leb, Is_true_true.
      apply (StronglySorted_app_1_elem_of key_lt recs [r]); [done|done|].
      apply list_elem_of_here.
    + apply list_elem_of_singleton in Hr0 as ->. apply Is_true_true, leb_refl.
  - apply (Permutation_cons_inv (a := (record_key r, record_value r))).
    rewrite (map_to_list_delete m _ _ Hr), <- Hperm, map_app. cbn [List.map].
    apply Permutation_cons_append.
Qed.

Lemma last_entry_unique (m : gmap string string) (k v k' v' : string) :
  last_entry m k v -> last_entry m k' v' -> k' = k ∧ v' = v.
Proof.
  intros [Hk Hmax] [Hk' Hmax'].
  assert (k' = k) as ->.
  { apply leb_antisym; apply Is_true_true; [apply Hmax|apply Hmax']; eauto. }
  split; [done|]. congruence.
Qed.

(** X14. Encode then decode. When [Bytes] of a value without parsed mapping
    succeeds with a content that fits the 16-bit size field,
    [OptionsFromBytes] accepts these bytes in any store and consumes them
    all. The value it returns holds the entries that were encoded, except
    that the entry with the greatest key is missing when its key and value
    have fewer than two bytes together: its record is the last and has fewer
    than six bytes, which the decoder does not read. *)
Theorem options_encode_then_decode (o : Options) (σ : store) (m : gmap string string)
    (out : list byte) (τ : store) :
  mapping o = None -> deref (values o) σ = Some m ->
  Bytes (Some o) σ = Done ((out, None), σ) ->
  len out < 2 + 2 ^ 16 ->
  ∃ o' m',
    OptionsFromBytes out τ = Done ((Some o', len out, None), τ ++ [m']) ∧
    entries (Some o') (τ ++ [m']) = Some m' ∧
    (m = ∅ -> m' = ∅) ∧
    (∀ k v, last_entry m k v ->
       m' = if len (list_byte_of_string k) + len (list_byte_of_string v) <? 2
            then delete k m else m).
Proof.
  intros Hmp Hm HBytes Hlen.
  destruct (Bytes_of_map o σ m Hmp Hm) as (out' & err & HB & Hsorted & _ & _).
  rewrite HBytes in HB. injection HB as <- <-.
  destruct (Hsorted eq_refl) as (recs & [Hwf Hout] & Hs & Hrecs).
  unfold Mapping_Data, ValuesToMapping in Hout. cbn [size vals] in Hout.
  set (content := flat_map record_bytes recs) in *.
  pose proof (len_nonneg content) as H0.
  assert (len content < 2 ^ 16) as Hc.
  { rewrite Hout in Hlen. unfold be16_bytes in Hlen. cbn [app] in Hlen.
    rewrite !len_cons in Hlen. lia. }
  assert (wire_size out = len content) as Hws.
  { rewrite Hout. unfold be16_bytes, wire_size. cbn [app byte_at nth].
    apply be16_value_bytes. lia. }
  assert (region out = content) as Hreg.
  { unfold region. rewrite Hws, Hout. unfold be16_bytes. cbn [app drop].
    unfold len. rewrite Nat2Z.id. apply firstn_all. }
  assert (len out = 2 + len content) as Hlo.
  { rewrite Hout. unfold be16_bytes. cbn [app]. rewrite !len_cons. lia. }
  rewrite OptionsFromBytes_cases, Hws, Hreg, Hlo.
  destruct (Z.ltb_spec (2 + len content) 2); [lia|].
  destruct recs as [|r recs _] using rev_ind.
  { apply records_of_empty in Hrecs as ->.
    change (len content) with 0. cbn [Z.eqb Z.add].
    exists (mkOptions None (Some (length τ))), ∅. split_and!; try done.
    - cbn. apply lookup_fresh_cell.
    - intros k v [Hk _]. by rewrite lookup_empty in Hk. }
  apply Forall_app in Hwf as [Hwf Hr]. apply Forall_inv in Hr.
  pose proof (record_bytes_len _ Hr) as Hr4.
  pose proof (record_bytes_len_eq _ Hr) as Hreq.
  destruct (last_record_last_entry m recs r Hs Hrecs) as [Hlast Hrest].
  pose proof (StronglySorted_key_lt_NoDup _ Hs) as Hnd.
  assert (content = flat_map record_bytes recs ++ record_bytes r) as Hcontent.
  { unfold content. rewrite flat_map_app. cbn [flat_map]. by rewrite app_nil_r. }
  assert (4 <= len content) as Hc4.
  { rewrite Hcontent, len_app. pose proof (len_nonneg (flat_map record_bytes recs)). lia. }
  destruct (Z.eqb_spec (len content) 0); [lia|].
  destruct (Z.ltb_spec (2 + len content) 3); [lia|].
  destruct (Z.ltb_spec (2 + len content - 2) (len content)); [lia|].
  destruct (Z.ltb_spec (len content) (2 + len content - 2)); [lia|].
  destruct (Z.ltb_spec (len (list_byte_of_string (record_key r))
                        + len (list_byte_of_string (record_value r))) 2) as [Hshort|Hlong].
  - (* the last record has fewer than six bytes *)
    assert (ReadMappingValues (length content) content [] = inr recs) as ->.
    { rewrite Hcontent.
      apply (ReadMappingValues_complete recs (record_bytes r)); first last.
      { done. }
      { intros r' Hr'. pose proof (last_Some_elem_of _ _ Hr') as Hin.
        rewrite Forall_forall in Hwf. apply Hwf, record_bytes_len in Hin. lia. }
      { lia. }
      { by intros r' _ ?%elem_of_nil. }
      { rewrite fmap_app in Hnd. by apply NoDup_app in Hnd as (? & _). }
      { done. } }
    assert (last_write_wins recs = delete (record_key r) m) as ->.
    { unfold last_write_wins. by apply assign_all_entries. }
    eexists _, _. split_and!; [reflexivity|cbn; apply lookup_fresh_cell| |].
    + intros ->. destruct Hlast as [Hk _]. by rewrite lookup_empty in Hk.
    + intros k v Hkv. destruct (last_entry_unique _ _ _ _ _ Hlast Hkv) as [-> ->].
      by destruct (Z.ltb_spec (len (list_byte_of_string (record_key r))
                               + len (list_byte_of_string (record_value r))) 2); [|lia].
  - assert (ReadMappingValues (length content) content [] = inr (recs ++ [r])) as ->.
    { rewrite <- (app_nil_r content). unfold content.
      apply (ReadMappingValues_complete (recs ++ [r]) []); first last.
      { done. }
      { intros r' Hr'. rewrite last_snoc in Hr'. injection Hr' as <-.
        rewrite len_nil. lia. }
      { rewrite len_nil. lia. }
      { by intros r' _ ?%elem_of_nil. }
      { done. }
      { apply Forall_app. split; [done|]. by apply Forall_singleton. } }
    assert (last_write_wins (recs ++ [r]) = m) as ->.
    { unfold last_write_wins. by apply assign_all_entries. }
    eexists _, _. split_and!; [reflexivity|cbn; apply lookup_fresh_cell| |].
    + intros ->. destruct Hlast as [Hk _]. by rewrite lookup_empty in Hk.
    + intros k v Hkv. destruct (last_entry_unique _ _ _ _ _ Hlast Hkv) as [-> ->].
      by destruct (Z.ltb_spec (len (list_byte_of_string (record_key r))
                               + len (list_byte_of_string (record_value r))) 2); [lia|].
Qed.

Lemma options_encode_then_decode_witness :
  ∃ o' m',
    OptionsFromBytes a_empty_wire [] = Done ((Some o', len a_empty_wire, None), [] ++ [m']) ∧
    entries (Some o') ([] ++ [m']) = Some m' ∧
    (({["a" := ""]} : gmap string string) = ∅ -> m' = ∅) ∧
    (∀ k v, last_entry {["a" := ""]} k v ->
       m' = if len (list_byte_of_string k) + len (list_byte_of_string v) <? 2
            then delete k {["a" := ""]} else {["a" := ""]}).
Proof.
  apply (options_encode_then_decode (mkOptions None (Some 0%nat)) [{["a" := ""]}]);
    [reflexivity|reflexivity|vm_compute; reflexivity|vm_compute; reflexivity].
Defined.

(** X15. [Bytes] of a value without parsed mapping fails exactly when some
    key or value of its map has more than 255 bytes, and it then returns no
    bytes. *)
Theorem options_bytes_error_iff (o : Options) (σ : store) (m : gmap string string) :
  mapping o = None -> deref (values o) σ = Some m ->
  ∃ data err,
    Bytes (Some o) σ = Done ((data, err), σ) ∧
    (err = None ↔ fits m) ∧
    (err ≠ None -> data = []).
Proof.
  intros Hmp Hm. unfold Bytes, map_len. rewrite Hmp.
  erewrite heapM_bind_Done;
    [|erewrite heapM_bind_Done; [reflexivity|by apply map_read_deref]].
  destruct (Z.eqb_spec (Z.of_nat (base.size m)) 0) as [Hz|Hnz].
  { apply size_zero_empty in Hz as ->. eexists _, _. split; [reflexivity|].
    split; [|done]. split; [|done]. intros _ k v. by rewrite lookup_empty. }
  erewrite heapM_bind_Done by (by apply map_read_deref).
  unfold GoMapToMapping.
  set (kvs := merge_sort key_le (map_to_list m)).
  assert (kvs ≡ₚ map_to_list m) as Hperm by apply merge_sort_Permutation.
  assert (Forall fits_pair kvs ↔ fits m) as Hfits.
  { rewrite Forall_forall. split.
    - intros H k v Hk. apply (H (k, v)). rewrite Hperm. by apply elem_of_map_to_list.
    - intros H [k v] Hin. rewrite Hperm in Hin. apply elem_of_map_to_list in Hin.
      by apply H. }
  destruct (validate kvs) as [e|] eqn:Hval.
  - eexists _, _. split; [reflexivity|]. split; [|done].
    split; [done|]. intros Hf%Hfits%validate_None. congruence.
  - eexists _, _. split; [reflexivity|]. split; [|done].
    split; [|done]. intros _. by apply Hfits, validate_None.
Qed.

Lemma options_bytes_error_iff_witness :
  ∃ data err,
    Bytes (Some (mkOptions None (Some 0%nat))) [{["a" := "1"]}]
      = Done ((data, err), [{["a" := "1"]}]) ∧
    (err = None ↔ fits {["a" := "1"]}) ∧
    (err ≠ None -> data = []).
Proof.
  apply (options_bytes_error_iff (mkOptions None (Some 0%nat)) [{["a" := "1"]}]);
    reflexivity.
Defined.

(** X16. The records a successful decode has read have keys that differ from
    each other: [Get] of the key of a record gives the value of that record
    and [Has] true; for a key that no record read has, [Get] gives the empty
    string and [Has] false. *)
Theorem options_decode_keys_distinct (raw : list byte) (σ σ' : store) (o : Options)
    (n : Z) :
  OptionsFromBytes raw σ = Done ((Some o, n, None), σ') ->
  ∃ recs tail,
    region raw = flat_map record_bytes recs ++ tail ∧ len tail < 6 ∧
    NoDup (record_key <$> recs) ∧
    (∀ r, r ∈ recs ->
       run (Get (Some o) (record_key r)) σ' = Done (record_value r) ∧
       run (Has (Some o) (record_key r)) σ' = Done true) ∧
    (∀ k, (∀ r, r ∈ recs -> record_key r ≠ k) ->
          run (Get (Some o) k) σ' = Done EmptyString ∧
          run (Has (Some o) k) σ' = Done false).
Proof.
  intros Hdec.
  destruct (OptionsFromBytes_success _ _ _ _ _ _ Hdec)
    as (recs & tail & _ & Hnd & Hreg & Htail & _ & _ & _ & _ & -> & Hvs & _).
  exists recs, tail. split_and!; try done.
  - intros r Hr.
    assert (entries (Some o) (σ ++ [last_write_wins recs]) = Some (last_write_wins recs))
      as He by (cbn; rewrite Hvs; apply lookup_fresh_cell).
    unfold run. rewrite (Get_entries _ _ _ _ He), (Has_entries _ _ _ _ He).
    by rewrite (last_write_wins_NoDup recs r Hnd Hr).
  - intros k Hk.
    assert (entries (Some o) (σ ++ [last_write_wins recs]) = Some (last_write_wins recs))
      as He by (cbn; rewrite Hvs; apply lookup_fresh_cell).
    unfold run. rewrite (Get_entries _ _ _ _ He), (Has_entries _ _ _ _ He).
    by rewrite (last_write_wins_absent recs k Hk).
Qed.

Lemma options_decode_keys_distinct_witness :
  (∃ recs tail,
    region b_a_wire = flat_map record_bytes recs ++ tail ∧ len tail < 6 ∧
    NoDup (record_key <$> recs) ∧
    (∀ r, r ∈ recs ->
       run (Get (Some (mkOptions (Some (mkMapping 12
              [([Byte.x01; Byte.x62], [Byte.x01; Byte.x32]);
               ([Byte.x01; Byte.x61], [Byte.x01; Byte.x31])])) (Some 0%nat)))
              (record_key r)) [{["a" := "1"; "b" := "2"]}] = Done (record_value r) ∧
       run (Has (Some (mkOptions (Some (mkMapping 12
              [([Byte.x01; Byte.x62], [Byte.x01; Byte.x32]);
               ([Byte.x01; Byte.x61], [Byte.x01; Byte.x31])])) (Some 0%nat)))
              (record_key r)) [{["a" := "1"; "b" := "2"]}] = Done true) ∧
    (∀ k, (∀ r, r ∈ recs -> record_key r ≠ k) ->
          run (Get (Some (mkOptions (Some (mkMapping 12
              [([Byte.x01; Byte.x62], [Byte.x01; Byte.x32]);
               ([Byte.x01; Byte.x61], [Byte.x01; Byte.x31])])) (Some 0%nat))) k)
              [{["a" := "1"; "b" := "2"]}] = Done EmptyString ∧
          run (Has (Some (mkOptions (Some (mkMapping 12
              [([Byte.x01; Byte.x62], [Byte.x01; Byte.x32]);
               ([Byte.x01; Byte.x61], [Byte.x01; Byte.x31])])) (Some 0%nat))) k)
              [{["a" := "1"; "b" := "2"]}] = Done false)) ∧
  OptionsFromBytes a_a_wire [] = Done ((None, 0, Some (ParseFailed DuplicateKey)), []).
Proof.
  split; [|vm_compute; reflexivity].
  apply (options_decode_keys_distinct b_a_wire [] _ _ 14). vm_compute. reflexivity.
Defined.

(** X17. The empty mapping is the two bytes 00 00: a receiver whose map has
    no entry (nil, fresh from [EmptyOptions], or holding a parsed mapping
    that is no longer looked at) gives these bytes, length 2 and [IsEmpty];
    [EmptyOptions] makes such a value with a map of its own; and decoding
    the two bytes makes one again. *)
Theorem options_empty_encoding :
  (∀ o σ, entries o σ = Some ∅ ->
     Bytes o σ = Done ((empty_mapping_bytes, None), σ) ∧
     Len o σ = Done (2, σ) ∧
     run (IsEmpty o) σ = Done true) ∧
  (∀ σ, ∃ e σ',
     EmptyOptions σ = Done (e, σ') ∧ entries (Some e) σ' = Some ∅ ∧
     values e = Some (length σ) ∧ σ' = σ ++ [∅]) ∧
  (∀ σ, ∃ e,
     OptionsFromBytes empty_mapping_bytes σ = Done ((Some e, 2, None), σ ++ [∅]) ∧
     entries (Some e) (σ ++ [∅]) = Some ∅).
Proof.
  split_and!.
  - intros o σ He. split_and!.
    + destruct o as [[mp r]|]; [|done]. cbn [entries values] in He.
      unfold Bytes, map_len. cbn [values].
      erewrite heapM_bind_Done;
        [|erewrite heapM_bind_Done; [reflexivity|by apply map_read_deref]].
      by rewrite map_size_empty.
    + destruct o as [[mp r]|]; [|done]. cbn [entries values] in He.
      unfold Len, map_len. cbn [values].
      erewrite heapM_bind_Done;
        [|erewrite heapM_bind_Done; [reflexivity|by apply map_read_deref]].
      by rewrite map_size_empty.
    + unfold run. by rewrite (IsEmpty_entries _ _ _ He).
  - intros σ. eexists _, _. rewrite EmptyOptions_fresh. split_and!; try reflexivity.
    cbn. apply lookup_fresh_cell.
  - intros σ. rewrite OptionsFromBytes_cases. cbn [Z.ltb Z.eqb].
    eexists. split; [reflexivity|]. cbn. apply lookup_fresh_cell.
Qed.

End OptionsAccessors.
